(** * Fetch coordination and staleness suppression of the [Tags] component

    A shallow embedding of
    [src/sentry/static/sentry/app/views/eventsV2/tags.tsx]: the React
    component [Tags], its state, the round-starting [fetchData], the
    continuations that run when a fetch settles, the change detection of
    [componentDidUpdate], and [renderTag].

    Conventions of the embedding.
    - [this.state] and [this.props] are fields of a [World], which is
      threaded through a small state-and-exception monad [M].
    - The component is observed between the synchronous steps of React: a
      mount, a change of props with its [componentDidUpdate], a render, the
      continuation of one settled request.  At that grain [this.setState]
      applies its update in program order.  Inside [componentDidMount] and
      [componentDidUpdate] React queues the update until the method has
      returned; the module [Lifecycle] models [fetchData] at that finer
      grain.
    - A JS object used as a dictionary ([State.tags]) is a [gmap] of its own
      properties; a read [tags[tag]] that finds no own property falls back
      on the properties inherited from [Object.prototype].
    - [Symbol(..)] yields a value never produced before: a counter in the
      world numbers the symbols.
    - An [async] function runs synchronously up to its first [await]; the
      remainder is a continuation that runs when the awaited request
      settles.  A dispatched request is kept, with the variables its
      continuation closes over, in [inflight].
    - Collaborators that live outside this file ([EventView], [pickTagParams],
      [getEventTagSearchUrl], [Client], ...) are the fields of the class
      [Collaborators]. *)

From Stdlib Require Import ZArith.
From stdpp Require Import base option list gmap sets strings relations.

(** ** Collaborators

    What [tags.tsx] imports and does not define.  [isEqual] of lodash is deep
    equality; on the picked parameters it is the decidable equality of the
    value model. *)
Class Collaborators := {
  Client : Type;
  Organization : Type;
  EventView : Type;
  Location : Type;
  EventsAPIPayload : Type;
  TagParams : Type;
  Url : Type;
  Error : Type;
  TagParams_eq_dec :: EqDecision TagParams;
  (** [organization.slug] *)
  slug : Organization -> string;
  (** [eventView.tags] *)
  EventView_tags : EventView -> list string;
  (** [eventView.getEventsAPIPayload(location)] *)
  getEventsAPIPayload : EventView -> Location -> EventsAPIPayload;
  pickTagParams : EventsAPIPayload -> TagParams;
  getEventTagSearchUrl : string -> string -> Location -> Url;
  (** The error the engine throws when a property of [undefined] is read. *)
  TypeError : Error
}.

Section Model.
Context `{!Collaborators}.

(** ** Data model *)

(** Modelled from the spec: the type declarations [TagTopValue] and [Tag]
    of [./utils] are not part of the sources at hand.  [tags.tsx] reads
    [value], writes [url] and reads [topValues]; the count is the one of
    the spec's "value/count pairs". *)
Record TagTopValue := mkTagTopValue {
  url : Url;
  value : string;
  count : Z
}.

Record Tag := mkTag {
  topValues : list TagTopValue
}.

(** A JS symbol: [symbol_id] is its identity, [description] the string it
    was created with. *)
Record symbol := mkSymbol {
  symbol_id : nat;
  description : string
}.

#[global] Instance symbol_eq_dec : EqDecision symbol.
Proof. solve_decision. Defined.

Record Props := mkProps {
  api : Client;
  organization : Organization;
  eventView : EventView;
  location : Location
}.

Record State := mkState {
  tags : gmap string Tag;
  totalValues : option Z;
  tagsFetchID : option symbol
}.

(** A dispatched request whose continuation has not run yet, with the
    variables the continuation closes over ([tag], [tagsFetchID]). *)
Inductive Pending :=
| AwaitTagDistribution
    (client : Client) (orgSlug : string) (tag : string)
    (queryPayload : TagParams) (id : symbol)
| AwaitTotalCount
    (client : Client) (orgSlug : string)
    (queryPayload : TagParams) (id : symbol).

(** The effects of the component on its collaborators, in program order. *)
Inductive Event :=
| EvSymbol (id : symbol)
| EvSetState (next : State)
| EvRequest (rq : Pending)
| EvCaptureException (err : Error).

Record World := mkWorld {
  props : Props;
  state : State;
  symbols : nat;
  inflight : list Pending;
  log : list Event
}.

(** What [TagDistributionMeter] receives from [renderTag]. *)
Record TagDistributionMeter := mkMeter {
  meter_key : string;
  meter_title : string;
  meter_segments : list TagTopValue;
  meter_totalValues : option Z;
  meter_isLoading : bool
}.

(** ** The monad of component code *)

Inductive Completion (A : Type) :=
| Normal (a : A)
| Throw (err : Error).
Arguments Normal {A} a.
Arguments Throw {A} err.

Definition M (A : Type) : Type := World -> Completion A * World.

Definition ret {A} (a : A) : M A := fun w => (Normal a, w).

Definition bind {A B} (m : M A) (k : A -> M B) : M B :=
  fun w =>
    match m w with
    | (Normal a, w') => k a w'
    | (Throw err, w') => (Throw err, w')
    end.

Definition throw {A} (err : Error) : M A := fun w => (Throw err, w).

Definition try_catch {A} (body : M A) (handler : Error -> M A) : M A :=
  fun w =>
    match body w with
    | (Normal a, w') => (Normal a, w')
    | (Throw err, w') => handler err w'
    end.

Definition exec {A} (m : M A) (w : World) : World := snd (m w).
Definition completion {A} (m : M A) (w : World) : Completion A := fst (m w).

Notation "'let*' x ':=' m 'in' k" := (bind m (fun x => k))
  (at level 10, x name, m at level 100, k at level 200).
Notation "m1 '>>' m2" := (bind m1 (fun _ => m2))
  (at level 100, m2 at level 200, right associativity).

Fixpoint forEach {A} (l : list A) (callback : A -> M unit) : M unit :=
  match l with
  | [] => ret tt
  | x :: l' => callback x >> forEach l' callback
  end.

Fixpoint mapM {A B} (l : list A) (callback : A -> M B) : M (list B) :=
  match l with
  | [] => ret []
  | x :: l' =>
      let* y := callback x in
      let* ys := mapM l' callback in
      ret (y :: ys)
  end.

(** ** Primitive effects *)

Definition this_props : M Props := fun w => (Normal (props w), w).
Definition this_state : M State := fun w => (Normal (state w), w).

(** [Symbol(description)] *)
Definition Symbol (d : string) : M symbol :=
  fun w =>
    let id := mkSymbol (symbols w) d in
    (Normal id,
     mkWorld (props w) (state w) (S (symbols w)) (inflight w)
             (log w ++ [EvSymbol id])).

(** [this.setState(updater)], seen between the synchronous steps of React:
    the update is applied.  (Inside a lifecycle method it is queued first,
    see [Lifecycle.setState]; the render React performs on a state change is
    the step [step_render] below, and an exception of that render, which
    React raises out of [this.setState] when a continuation calls it, is not
    part of this grain.) *)
Definition setState (updater : State -> State) : M unit :=
  fun w =>
    let next := updater (state w) in
    (Normal tt,
     mkWorld (props w) next (symbols w) (inflight w)
             (log w ++ [EvSetState next])).

(** Calling the transport and suspending at the [await]. *)
Definition request (rq : Pending) : M unit :=
  fun w =>
    (Normal tt,
     mkWorld (props w) (state w) (symbols w) (inflight w ++ [rq])
             (log w ++ [EvRequest rq])).

(** Resuming at an [await] whose promise has settled. *)
Definition await {A} (settled : A + Error) : M A :=
  match settled with
  | inl v => ret v
  | inr err => throw err
  end.

(** [Sentry.captureException(err)] *)
Definition captureException (err : Error) : M unit :=
  fun w =>
    (Normal tt,
     mkWorld (props w) (state w) (symbols w) (inflight w)
             (log w ++ [EvCaptureException err])).

(** A direct write to [this.state] through an alias (no [setState]). *)
Definition mutate_state (next : State) : M unit :=
  fun w =>
    (Normal tt, mkWorld (props w) next (symbols w) (inflight w) (log w)).

(** ** The component *)

(** [state: State = {tags: {}, totalValues: null, tagsFetchID: undefined}] *)
Definition initial_state : State := mkState ∅ None None.

Definition constructed (p : Props) : World :=
  mkWorld p initial_state 0 [] [].

(** [isEqual] *)
Definition isEqual {A} `{!EqDecision A} (a b : A) : bool :=
  bool_decide (a = b).

(** [new Set(array)]; [isEqual] holds of two sets exactly when they have
    the same elements. *)
Definition new_Set (l : list string) : gset string := list_to_set l.

(** The state written at lines 100-103:
    [{...state, tags: {...state.tags, [tag]: val}}] guarded by the token. *)
Definition tag_updater (id : symbol) (tag : string) (val : Tag)
    (st : State) : State :=
  if bool_decide (tagsFetchID st ≠ Some id) then st
  else mkState (<[tag := val]> (tags st)) (totalValues st) (tagsFetchID st).

(** The state written at line 118: [{...state, totalValues}] guarded by
    the token. *)
Definition total_updater (id : symbol) (total : Z) (st : State) : State :=
  if bool_decide (tagsFetchID st ≠ Some id) then st
  else mkState (tags st) (Some total) (tagsFetchID st).

(** Lines 91-107 after the [await]: the rest of the [async tag => ...]
    callback. *)
Definition tag_continuation (tag : string) (id : symbol)
    (settled : Tag + Error) : M unit :=
  try_catch
    (let* val := await settled in
     setState (tag_updater id tag val))
    (fun err => captureException err).

(** Lines 110-122 after the [await]. *)
Definition total_continuation (id : symbol) (settled : Z + Error) : M unit :=
  try_catch
    (let* total := await settled in
     setState (total_updater id total))
    (fun err => captureException err).

(** Lines 82-123 up to the suspension points.  The object passed to
    [setState] at line 86 names every field of the state, so the merge it
    asks for replaces the state.  Each [async] callback of the [forEach] runs
    up to its [await], that is, it sends its request; so does [fetchData]
    itself for the total. *)
Definition fetchData : M unit :=
  let* p := this_props in
  let* id := Symbol "tagsFetchID" in
  setState (fun _ => mkState ∅ None (Some id)) >>
  let queryPayload :=
    pickTagParams (getEventsAPIPayload (eventView p) (location p)) in
  forEach (EventView_tags (eventView p)) (fun tag =>
    request (AwaitTagDistribution (api p) (slug (organization p)) tag
               queryPayload id)) >>
  request (AwaitTotalCount (api p) (slug (organization p)) queryPayload id).

Definition componentDidMount : M unit := fetchData.

(** Lines 61-64 *)
Definition tagsChanged (thisProps prevProps : Props) : bool :=
  negb (isEqual (new_Set (EventView_tags (eventView thisProps)))
                (new_Set (EventView_tags (eventView prevProps)))).

Definition shouldRefetchData (thisProps prevProps : Props) : bool :=
  let thisAPIPayload :=
    pickTagParams
      (getEventsAPIPayload (eventView thisProps) (location thisProps)) in
  let otherAPIPayload :=
    pickTagParams
      (getEventsAPIPayload (eventView prevProps) (location prevProps)) in
  negb (isEqual thisAPIPayload otherAPIPayload).

Definition componentDidUpdate (prevProps : Props) : M unit :=
  let* p := this_props in
  if tagsChanged p prevProps || shouldRefetchData p prevProps
  then fetchData
  else ret tt.

(** [segment.url = getEventTagSearchUrl(tag, segment.value, location)] *)
Definition set_url (tag : string) (loc : Location) (segment : TagTopValue)
    : TagTopValue :=
  mkTagTopValue (getEventTagSearchUrl tag (value segment) loc)
                (value segment) (count segment).

(** The names of the properties a plain object inherits from
    [Object.prototype]: reading [obj[name]] yields the inherited function
    (for ["__proto__"], the prototype itself) when [obj] has no own property
    of that name.  All of these values are truthy, and none of them has a
    property [topValues]. *)
Definition Object_prototype : list string :=
  ["constructor"; "hasOwnProperty"; "isPrototypeOf"; "propertyIsEnumerable";
   "toLocaleString"; "toString"; "valueOf"; "__proto__";
   "__defineGetter__"; "__defineSetter__";
   "__lookupGetter__"; "__lookupSetter__"].

Definition inherited (key : string) : bool :=
  bool_decide (key ∈ Object_prototype).

(** Lines 137-163.  [tags[tag]] is the own entry of the facet map (a result
    of the transport, an object, hence truthy) and, without one, the
    property inherited under that name, if any.  When the facet is not
    loading, [segments] is the very array [this.state.tags[tag].topValues],
    so the assignments to [segment.url] are writes into the stored state;
    for an inherited property [topValues] is [undefined] and
    [segments.forEach] at line 148 throws. *)
Definition renderTag (tag : string) : M TagDistributionMeter :=
  let* p := this_props in
  let* st := this_state in
  let found := bool_decide (is_Some (tags st !! tag)) || inherited tag in
  let isLoading := negb found || bool_decide (totalValues st = None) in
  if isLoading then ret (mkMeter tag tag [] (totalValues st) isLoading)
  else
    match tags st !! tag with
    | Some t =>
        let segments := map (set_url tag (location p)) (topValues t) in
        mutate_state
          (mkState (<[tag := mkTag segments]> (tags st))
                   (totalValues st) (tagsFetchID st)) >>
        ret (mkMeter tag tag segments (totalValues st) isLoading)
    | None => throw TypeError
    end.

Definition render : M (list TagDistributionMeter) :=
  let* p := this_props in
  mapM (EventView_tags (eventView p)) renderTag.

(** ** Executions of the component *)

(** New props arrive (React then calls [componentDidUpdate] with the
    previous ones). *)
Definition receive_props (nextProps : Props) (w : World) : World :=
  mkWorld nextProps (state w) (symbols w) (inflight w) (log w).

(** A request leaves the in-flight list when it settles. *)
Definition settle (rest : list Pending) (w : World) : World :=
  mkWorld (props w) (state w) (symbols w) rest (log w).

(** The component right after [componentDidMount]. *)
Definition mounted (p : Props) : World :=
  exec componentDidMount (constructed p).

(** One step of the component's life after mounting: new props arrive, React
    renders, or one of the requests in flight settles (in any order, with a
    value or with an error).  [admissible] restricts the props the parent may
    pass.  The worlds related are those between the synchronous steps of
    React, where the continuations of requests run: the arrival of props
    and the [componentDidUpdate] that React calls for it are one step, and
    the render React performs in between, on the new props and the state as
    it was, is not a world of this relation. *)
Inductive step (admissible : Props -> Prop) : World -> World -> Prop :=
| step_props w nextProps :
    admissible nextProps ->
    step admissible w
      (exec (componentDidUpdate (props w)) (receive_props nextProps w))
| step_render w :
    step admissible w (exec render w)
| step_tag_settled w before after client orgSlug tag queryPayload id settled :
    inflight w =
      before ++ AwaitTagDistribution client orgSlug tag queryPayload id :: after ->
    step admissible w
      (exec (tag_continuation tag id settled) (settle (before ++ after) w))
| step_total_settled w before after client orgSlug queryPayload id settled :
    inflight w =
      before ++ AwaitTotalCount client orgSlug queryPayload id :: after ->
    step admissible w
      (exec (total_continuation id settled) (settle (before ++ after) w)).

(** The worlds of a component created with props [p]: the freshly
    constructed one (which React renders once before mounting), and all that
    follow the mount. *)
Definition reachable (admissible : Props -> Prop) (p : Props) (w : World) : Prop :=
  rtc (step admissible) (mounted p) w.

Definition lifetime (admissible : Props -> Prop) (p : Props) (w : World) : Prop :=
  w = constructed p \/ reachable admissible p w.

(** The facets of a context form a set: no facet is listed twice (React
    also requires it, [renderTag] uses the facet as [key]). *)
Definition distinct_facets (p : Props) : Prop :=
  NoDup (EventView_tags (eventView p)).

(** ** Vocabulary of the statements *)

(** The requests one round dispatches, in dispatch order. *)
Definition round_requests (p : Props) (id : symbol) : list Pending :=
  let queryPayload :=
    pickTagParams (getEventsAPIPayload (eventView p) (location p)) in
  map (fun tag =>
         AwaitTagDistribution (api p) (slug (organization p)) tag
           queryPayload id)
      (EventView_tags (eventView p))
  ++ [AwaitTotalCount (api p) (slug (organization p)) queryPayload id].

(** The state a round starts from. *)
Definition reset_state (id : symbol) : State := mkState ∅ None (Some id).

Definition pending_id (rq : Pending) : symbol :=
  match rq with
  | AwaitTagDistribution _ _ _ _ id => id
  | AwaitTotalCount _ _ _ id => id
  end.

(** The entry of the state a request is to fill: a facet, or the total
    ([None]). *)
Definition pending_target (rq : Pending) : option string :=
  match rq with
  | AwaitTagDistribution _ _ tag _ _ => Some tag
  | AwaitTotalCount _ _ _ _ => None
  end.

Definition entry_absent (target : option string) (st : State) : Prop :=
  match target with
  | Some tag => tags st !! tag = None
  | None => totalValues st = None
  end.

(** The symbols created so far. *)
Definition minted (l : list Event) : list symbol :=
  omap (fun ev => match ev with EvSymbol id => Some id | _ => None end) l.

(** The faults reported so far. *)
Definition captured (l : list Event) : list Error :=
  omap (fun ev => match ev with EvCaptureException e => Some e | _ => None end) l.

(** A successful resolution, as the state update sees it. *)
Inductive Resolution :=
| FacetResolved (tag : string) (val : Tag)
| TotalResolved (total : Z).

Definition resolution_target (r : Resolution) : option string :=
  match r with
  | FacetResolved tag _ => Some tag
  | TotalResolved _ => None
  end.

(** The update the continuation of a round [id] hands to [setState]. *)
Definition merge (id : symbol) (st : State) (r : Resolution) : State :=
  match r with
  | FacetResolved tag val => tag_updater id tag val st
  | TotalResolved total => total_updater id total st
  end.

(** The value [renderTag] hands to the renderer. *)
Definition rendered (tag : string) (w : World) : option TagDistributionMeter :=
  match completion (renderTag tag) w with
  | Normal meter => Some meter
  | Throw _ => None
  end.

Definition pending_key (rq : Pending) : option string * symbol :=
  (pending_target rq, pending_id rq).


(** What the continuation of a request for [target] in round [id] may do
    to the state: nothing, or, in the current round, merge a resolution of
    that target. *)
Definition resolves (target : option string) (id : symbol) (st st' : State)
    : Prop :=
  st' = st \/
  (tagsFetchID st = Some id /\
   exists r, resolution_target r = target /\ st' = merge id st r).

(** What a render may change: the contents of entries that are present. *)
Definition same_entries (st st' : State) : Prop :=
  totalValues st' = totalValues st /\
  tagsFetchID st' = tagsFetchID st /\
  forall tag, tags st' !! tag = None <-> tags st !! tag = None.

Definition rerendered (w w' : World) : Prop :=
  props w' = props w /\ symbols w' = symbols w /\
  inflight w' = inflight w /\ log w' = log w /\
  same_entries (state w) (state w').

(** ** Invariants *)

(** Requests in flight carry symbols created earlier; no entry of a round
    is requested twice; an entry that a request of the current round is
    still to fill is absent. *)
Record coherent (w : World) : Prop := mk_coherent {
  coherent_ids :
    forall rq, rq ∈ inflight w -> symbol_id (pending_id rq) < symbols w;
  coherent_keys : NoDup (pending_key <$> inflight w);
  coherent_absent :
    forall rq,
      rq ∈ inflight w ->
      tagsFetchID (state w) = Some (pending_id rq) ->
      entry_absent (pending_target rq) (state w)
}.


(** The symbols created so far are numbered below the counter and pairwise
    distinct, and the token of the state is the last of them. *)
Record tokens_fresh (w : World) : Prop := mk_tokens_fresh {
  fresh_below :
    forall id, id ∈ minted (log w) -> symbol_id id < symbols w;
  fresh_nodup : NoDup (minted (log w));
  fresh_current : tagsFetchID (state w) = last (minted (log w))
}.

(** ** Vocabulary of the read view *)

(** What the loop at lines 148-150 leaves of a stored result. *)
Definition annotate (tag : string) (loc : Location) (t : Tag) : Tag :=
  mkTag (map (set_url tag loc) (topValues t)).

(** The facet map after [renderTag] has run for each of [facets]: nothing
    is written while the total is absent. *)
Definition annotate_tags (loc : Location) (st : State) (facets : list string)
    : gmap string Tag :=
  match totalValues st with
  | Some _ => foldl (fun m tag => alter (annotate tag loc) tag m) (tags st) facets
  | None => tags st
  end.

(** The meter [renderTag] builds from a state. *)
Definition meter_of (loc : Location) (st : State) (tag : string)
    : TagDistributionMeter :=
  match tags st !! tag, totalValues st with
  | Some t, Some total =>
      mkMeter tag tag (map (set_url tag loc) (topValues t)) (Some total) false
  | _, _ => mkMeter tag tag [] (totalValues st) true
  end.

(** [renderTag] throws at line 148: the facet has no entry, is named like
    an inherited property, and the total is present. *)
Definition throws (st : State) (tag : string) : bool :=
  bool_decide (tags st !! tag = None) && inherited tag
  && bool_decide (is_Some (totalValues st)).

(** The facets a render gets through: all of them, or those before the
    first one for which [renderTag] throws. *)
Fixpoint rendered_facets (st : State) (facets : list string) : list string :=
  match facets with
  | [] => []
  | tag :: facets' =>
      if throws st tag then [] else tag :: rendered_facets st facets'
  end.

Definition with_tags (m : gmap string Tag) (w : World) : World :=
  mkWorld (props w)
    (mkState m (totalValues (state w)) (tagsFetchID (state w)))
    (symbols w) (inflight w) (log w).

(** Two results that list the same values with the same counts, in the
    same order. *)
Definition same_values (t t' : Tag) : Prop :=
  value <$> topValues t' = value <$> topValues t /\
  count <$> topValues t' = count <$> topValues t.

(** What has arrived in [st] is still there in [st']. *)
Definition kept (st st' : State) : Prop :=
  (forall total, totalValues st = Some total -> totalValues st' = Some total) /\
  (forall tag t,
     tags st !! tag = Some t ->
     exists t', tags st' !! tag = Some t' /\ same_values t t').

(** Requests in flight carry symbols created earlier; the facets requested
    by the current round and the facets that have an entry are facets of
    the current props. *)
Record listed (w : World) : Prop := mk_listed {
  listed_ids :
    forall rq, rq ∈ inflight w -> symbol_id (pending_id rq) < symbols w;
  listed_requests :
    forall rq tag,
      rq ∈ inflight w ->
      tagsFetchID (state w) = Some (pending_id rq) ->
      pending_target rq = Some tag ->
      tag ∈ EventView_tags (eventView (props w));
  listed_entries :
    forall tag,
      is_Some (tags (state w) !! tag) ->
      tag ∈ EventView_tags (eventView (props w))
}.

Definition pending_query (rq : Pending) : TagParams :=
  match rq with
  | AwaitTagDistribution _ _ _ queryPayload _ => queryPayload
  | AwaitTotalCount _ _ queryPayload _ => queryPayload
  end.

(** Requests in flight carry symbols created earlier, and those of the
    current round carry the picked parameters of the current props. *)
Record queried (w : World) : Prop := mk_queried {
  queried_ids :
    forall rq, rq ∈ inflight w -> symbol_id (pending_id rq) < symbols w;
  queried_requests :
    forall rq,
      rq ∈ inflight w ->
      tagsFetchID (state w) = Some (pending_id rq) ->
      pending_query rq
      = pickTagParams
          (getEventsAPIPayload (eventView (props w)) (location (props w)))
}.

End Model.

Arguments Normal {_ A} a.
Arguments Throw {_ A} err.

(** ** Inside a lifecycle method

    [fetchData] is called by [componentDidMount] and [componentDidUpdate]
    only.  While such a method runs, React does not touch [this.state]:
    [this.setState] appends the update to a queue, and React applies the
    queue, in order, once the method has returned, before any other code of
    the component (the continuation of a request, a further render) runs.
    A computation [B A] is component code together with that queue. *)
Module Lifecycle.
Section Batching.
Context `{!Collaborators}.

Definition Queue : Type := list (State -> State).

Definition B (A : Type) : Type := Queue -> M (A * Queue).

Definition ret {A} (a : A) : B A := fun q w => (Normal (a, q), w).

Definition bind {A C} (m : B A) (k : A -> B C) : B C :=
  fun q w =>
    match m q w with
    | (Normal (a, q'), w') => k a q' w'
    | (Throw err, w') => (Throw err, w')
    end.

(** Component code that does not set the state. *)
Definition lift {A} (m : M A) : B A :=
  fun q w =>
    match m w with
    | (Normal a, w') => (Normal (a, q), w')
    | (Throw err, w') => (Throw err, w')
    end.

(** React applies the queued updates, in order, and sets the state once. *)
Definition flush (q : Queue) : M unit :=
  match q with
  | [] => fun w => (Normal tt, w)
  | _ => setState (fun st => foldl (fun st' update => update st') st q)
  end.

(** [this.setState(updater)] inside a lifecycle method. *)
Definition setState (updater : State -> State) : B unit :=
  fun q w => (Normal (tt, q ++ [updater]), w).

Notation "'let*' x ':=' m 'in' k" := (bind m (fun x => k))
  (at level 10, x name, m at level 100, k at level 200).
Notation "m1 '>>' m2" := (bind m1 (fun _ => m2))
  (at level 100, m2 at level 200, right associativity).

Fixpoint forEach {A} (l : list A) (callback : A -> B unit) : B unit :=
  match l with
  | [] => ret tt
  | x :: l' => callback x >> forEach l' callback
  end.

(** Lines 82-123 up to the suspension points, as run inside a lifecycle
    method. *)
Definition fetchData : B unit :=
  let* p := lift this_props in
  let* id := lift (Symbol "tagsFetchID") in
  setState (fun _ => mkState ∅ None (Some id)) >>
  let queryPayload :=
    pickTagParams (getEventsAPIPayload (eventView p) (location p)) in
  forEach (EventView_tags (eventView p)) (fun tag =>
    lift (request (AwaitTagDistribution (api p) (slug (organization p)) tag
                     queryPayload id))) >>
  lift (request (AwaitTotalCount (api p) (slug (organization p))
                   queryPayload id)).

Definition componentDidMount : B unit := fetchData.

Definition componentDidUpdate (prevProps : Props) : B unit :=
  let* p := lift this_props in
  if tagsChanged p prevProps || shouldRefetchData p prevProps
  then fetchData
  else ret tt.

(** A lifecycle method from its call to the moment React has applied the
    updates it queued. *)
Definition run (method : B unit) : M unit :=
  fun w =>
    match method [] w with
    | (Normal (_, q), w') => flush q w'
    | (Throw err, w') => (Throw err, w')
    end.

End Batching.
End Lifecycle.

(** ** A concrete instance

    Collaborators small enough to run the component on: an event view is its
    facet list with a query string, the events payload is the query with the
    location (which carries the sort order), and only the query is relevant
    to the fetches. *)
Definition scenario : Collaborators := {|
  Client := unit;
  Organization := string;
  EventView := list string * string;
  Location := string;
  EventsAPIPayload := string * string;
  TagParams := string;
  Url := option string;
  Error := string;
  TagParams_eq_dec := _;
  slug := fun org => org;
  EventView_tags := fst;
  getEventsAPIPayload := fun ev loc => (snd ev, loc);
  pickTagParams := fst;
  getEventTagSearchUrl := fun tag v loc =>
    Some (String.append loc (String.append "?query=" (String.append tag (String.append ":" v))));
  TypeError := "TypeError: Cannot read property 'forEach' of undefined"
|}.

Definition sym0 : symbol := mkSymbol 0 "tagsFetchID".
Definition sym1 : symbol := mkSymbol 1 "tagsFetchID".

Definition browser_os : @Props scenario :=
  @mkProps scenario tt "sentry" (["browser"; "os"], "is:unresolved") "/events/".
Definition os_browser_sorted : @Props scenario :=
  @mkProps scenario tt "sentry" (["os"; "browser"; "os"], "is:unresolved")
    "/events/?sort=-timestamp".
Definition browser_only : @Props scenario :=
  @mkProps scenario tt "sentry" (["browser"], "is:unresolved") "/events/".

Definition chrome_firefox : @Tag scenario :=
  @mkTag scenario
    [@mkTagTopValue scenario None "chrome" 10;
     @mkTagTopValue scenario None "firefox" 5].
Definition linux : @Tag scenario :=
  @mkTag scenario [@mkTagTopValue scenario None "linux" 15].

(** Round 0 was superseded by round 1 while its requests were in flight. *)
Definition superseded : @World scenario :=
  exec (componentDidUpdate browser_os)
       (receive_props browser_only (mounted browser_os)).

(** The requests of round 0 of a component mounted with [browser_os]. *)
Definition browser_request : @Pending scenario :=
  @AwaitTagDistribution scenario tt "sentry" "browser" "is:unresolved" sym0.
Definition os_request : @Pending scenario :=
  @AwaitTagDistribution scenario tt "sentry" "os" "is:unresolved" sym0.
Definition total_request : @Pending scenario :=
  @AwaitTotalCount scenario tt "sentry" "is:unresolved" sym0.

(** A component mounted with [browser_only] whose facet and total have both
    resolved. *)
Definition browser_resolved : @World scenario :=
  exec (tag_continuation "browser" sym0 (inl chrome_firefox))
       (settle [total_request] (mounted browser_only)).
Definition resolved_world : @World scenario :=
  exec (total_continuation sym0 (inl 15%Z)) (settle [] browser_resolved).

(** In [superseded], the stale result of round 0 for "os" arrives. *)
Definition late_os : @World scenario :=
  exec (tag_continuation "os" sym0 (inl linux))
       (settle
          [browser_request; total_request;
           @AwaitTagDistribution scenario tt "sentry" "browser"
             "is:unresolved" sym1;
           @AwaitTotalCount scenario tt "sentry" "is:unresolved" sym1]
          superseded).

(** In [resolved_world] the props change to [browser_os]:
    [componentDidUpdate] has returned, React has not yet applied the update
    it queued. *)
Definition dispatched : @World scenario :=
  snd (Lifecycle.componentDidUpdate browser_only []
         (receive_props browser_os resolved_world)).



(** A context whose only facet is named like an inherited property; the
    request for the facet is still in flight when the total arrives. *)
Definition constructor_only : @Props scenario :=
  @mkProps scenario tt "sentry" (["constructor"], "is:unresolved") "/events/".
Definition total_arrived : @World scenario :=
  exec (total_continuation sym0 (inl 5%Z))
       (settle
          [@AwaitTagDistribution scenario tt "sentry" "constructor"
             "is:unresolved" sym0]
          (mounted constructor_only)).

(** Three resolutions of one round, and the same in the opposite order. *)
Definition arrivals : list (@Resolution scenario) :=
  [FacetResolved "browser" chrome_firefox; FacetResolved "os" linux;
   TotalResolved 15%Z].

(** * Properties *)

Section Properties.
Context `{!Collaborators}.

(** ** What the operations do *)

Lemma forEach_request (f : string -> Pending) (l : list string) (w : World) :
  forEach l (fun tag => request (f tag)) w =
  (Normal tt,
   mkWorld (props w) (state w) (symbols w) (inflight w ++ map f l)
           (log w ++ map EvRequest (map f l))).
Proof.
  revert w. induction l as [|tag l IH]; intros w; simpl.
  - rewrite !app_nil_r. by destruct w.
  - unfold bind. simpl. rewrite IH. simpl.
    by rewrite <- !app_assoc.
Qed.

Lemma fetchData_run (w : World) :
  let id := mkSymbol (symbols w) "tagsFetchID" in
  fetchData w =
  (Normal tt,
   mkWorld (props w) (reset_state id) (S (symbols w))
           (inflight w ++ round_requests (props w) id)
           (log w ++ EvSymbol id :: EvSetState (reset_state id)
                  :: map EvRequest (round_requests (props w) id))).
Proof.
  intros id. unfold fetchData, bind. simpl.
  rewrite forEach_request. unfold request, round_requests, reset_state. simpl.
  rewrite map_app. simpl.
  by rewrite <- !app_assoc.
Qed.

Lemma tag_continuation_fulfilled tag id val w :
  tag_continuation tag id (inl val) w =
  (Normal tt,
   mkWorld (props w) (tag_updater id tag val (state w)) (symbols w)
           (inflight w) (log w ++ [EvSetState (tag_updater id tag val (state w))])).
Proof. reflexivity. Qed.

Lemma total_continuation_fulfilled id total w :
  total_continuation id (inl total) w =
  (Normal tt,
   mkWorld (props w) (total_updater id total (state w)) (symbols w)
           (inflight w)
           (log w ++ [EvSetState (total_updater id total (state w))])).
Proof. reflexivity. Qed.

Lemma tag_continuation_rejected tag id err w :
  tag_continuation tag id (inr err) w =
  (Normal tt,
   mkWorld (props w) (state w) (symbols w) (inflight w)
           (log w ++ [EvCaptureException err])).
Proof. reflexivity. Qed.

Lemma total_continuation_rejected id err w :
  total_continuation id (inr err) w =
  (Normal tt,
   mkWorld (props w) (state w) (symbols w) (inflight w)
           (log w ++ [EvCaptureException err])).
Proof. reflexivity. Qed.

Lemma tag_updater_stale id tag val st :
  tagsFetchID st <> Some id -> tag_updater id tag val st = st.
Proof. intros Hne. unfold tag_updater. by rewrite bool_decide_eq_true_2. Qed.

Lemma total_updater_stale id total st :
  tagsFetchID st <> Some id -> total_updater id total st = st.
Proof. intros Hne. unfold total_updater. by rewrite bool_decide_eq_true_2. Qed.

Lemma tag_updater_current id tag val st :
  tagsFetchID st = Some id ->
  tag_updater id tag val st =
  mkState (<[tag := val]> (tags st)) (totalValues st) (Some id).
Proof.
  intros Heq. unfold tag_updater.
  rewrite bool_decide_eq_false_2; [by rewrite Heq | by intros []].
Qed.

Lemma total_updater_current id total st :
  tagsFetchID st = Some id ->
  total_updater id total st = mkState (tags st) (Some total) (Some id).
Proof.
  intros Heq. unfold total_updater.
  rewrite bool_decide_eq_false_2; [by rewrite Heq | by intros []].
Qed.

Lemma captured_app (l1 l2 : list Event) :
  captured (l1 ++ l2) = captured l1 ++ captured l2.
Proof. apply omap_app. Qed.

Lemma minted_app (l1 l2 : list Event) :
  minted (l1 ++ l2) = minted l1 ++ minted l2.
Proof. apply omap_app. Qed.

Lemma new_Set_eq (l1 l2 : list string) :
  new_Set l1 = new_Set l2 <-> (forall facet, facet ∈ l1 <-> facet ∈ l2).
Proof.
  unfold new_Set. split.
  - intros Heq facet.
    rewrite <- (elem_of_list_to_set (C := gset string) facet l1).
    rewrite <- (elem_of_list_to_set (C := gset string) facet l2).
    by rewrite Heq.
  - intros Hiff. apply set_eq. intros facet.
    rewrite !elem_of_list_to_set. apply Hiff.
Qed.

(** ** Staleness suppression *)

(** C1.  A fetch resolution, of a facet or of the total, fulfilled or
    rejected, that carries a round token [T] other than the current one
    leaves the state as it was: the update handed to [setState] returns its
    argument, and so the state after the continuation is the state before. *)
Theorem stale_resolution_discarded (w : World) (T : symbol) :
  tagsFetchID (state w) <> Some T ->
  (forall tag settled,
     state (exec (tag_continuation tag T settled) w) = state w) /\
  (forall settled,
     state (exec (total_continuation T settled) w) = state w) /\
  (forall tag val, tag_updater T tag val (state w) = state w) /\
  (forall total, total_updater T total (state w) = state w).
Proof.
  intros Hstale. repeat split.
  - intros tag [val|err].
    + unfold exec. rewrite tag_continuation_fulfilled. simpl.
      by apply tag_updater_stale.
    + unfold exec. by rewrite tag_continuation_rejected.
  - intros [total|err].
    + unfold exec. rewrite total_continuation_fulfilled. simpl.
      by apply total_updater_stale.
    + unfold exec. by rewrite total_continuation_rejected.
  - intros tag val. by apply tag_updater_stale.
  - intros total. by apply total_updater_stale.
Qed.

(** C10.  The failure continuation reports the fault whatever the round
    token it carries, current or superseded: the log grows by exactly the
    report.  A fulfilled result of a superseded round is dropped without a
    report: the state and the reported faults stay as they were. *)
Theorem failure_reported_whatever_the_round (w : World) (id : symbol) (err : Error) :
  (forall tag,
     log (exec (tag_continuation tag id (inr err)) w)
     = log w ++ [EvCaptureException err]) /\
  log (exec (total_continuation id (inr err)) w)
  = log w ++ [EvCaptureException err] /\
  (forall tag,
     captured (log (exec (tag_continuation tag id (inr err)) w))
     = captured (log w) ++ [err]) /\
  captured (log (exec (total_continuation id (inr err)) w))
  = captured (log w) ++ [err] /\
  (tagsFetchID (state w) <> Some id ->
   (forall tag val,
      let w' := exec (tag_continuation tag id (inl val)) w in
      state w' = state w /\ captured (log w') = captured (log w)) /\
   (forall total,
      let w' := exec (total_continuation id (inl total)) w in
      state w' = state w /\ captured (log w') = captured (log w))).
Proof.
  split; [|split; [|split; [|split]]].
  - intros tag. unfold exec. by rewrite tag_continuation_rejected.
  - unfold exec. by rewrite total_continuation_rejected.
  - intros tag. unfold exec. rewrite tag_continuation_rejected. simpl.
    by rewrite captured_app.
  - unfold exec. rewrite total_continuation_rejected. simpl.
    by rewrite captured_app.
  - intros Hstale. split.
    + intros tag val w'. subst w'. unfold exec.
      rewrite tag_continuation_fulfilled. simpl.
      rewrite captured_app, app_nil_r. split; [|done].
      by apply tag_updater_stale.
    + intros total w'. subst w'. unfold exec.
      rewrite total_continuation_fulfilled. simpl.
      rewrite captured_app, app_nil_r. split; [|done].
      by apply total_updater_stale.
Qed.

(** ** Starting a round *)

Lemma lifecycle_forEach_request (f : string -> Pending) (l : list string)
    (q : Lifecycle.Queue) (w : World) :
  Lifecycle.forEach l (fun tag => Lifecycle.lift (request (f tag))) q w =
  (Normal (tt, q),
   mkWorld (props w) (state w) (symbols w) (inflight w ++ map f l)
           (log w ++ map EvRequest (map f l))).
Proof.
  revert w. induction l as [|tag l IH]; intros w; simpl.
  - unfold Lifecycle.ret. rewrite !app_nil_r. by destruct w.
  - unfold Lifecycle.bind, Lifecycle.lift. simpl. rewrite IH. simpl.
    by rewrite <- !app_assoc.
Qed.

Lemma lift_run {A} (m : M A) (q : Lifecycle.Queue) (w : World) :
  Lifecycle.lift m q w
  = match m w with
    | (Normal a, w') => (Normal (a, q), w')
    | (Throw err, w') => (Throw err, w')
    end.
Proof. reflexivity. Qed.

Lemma lifecycle_fetchData_run (q : Lifecycle.Queue) (w : World) :
  let id := mkSymbol (symbols w) "tagsFetchID" in
  Lifecycle.fetchData q w =
  (Normal (tt, q ++ [fun _ => reset_state id]),
   mkWorld (props w) (state w) (S (symbols w))
           (inflight w ++ round_requests (props w) id)
           (log w ++ EvSymbol id
                  :: map EvRequest (round_requests (props w) id))).
Proof.
  intros id. unfold Lifecycle.fetchData, Lifecycle.bind.
  rewrite (lift_run this_props). cbn [this_props].
  rewrite (lift_run (Symbol _)). cbn [Symbol]. cbv zeta.
  unfold Lifecycle.setState at 1.
  rewrite lifecycle_forEach_request. rewrite lift_run.
  unfold request, round_requests, reset_state. simpl.
  rewrite map_app. simpl.
  by rewrite <- !app_assoc.
Qed.

(** The lifecycle methods, once React has applied the updates they queued,
    leave the props, the state, the symbols and the requests in flight as
    the methods of the coarser grain do. *)
Lemma lifecycle_agrees (prevProps : Props) (w : World) :
  let fine := exec (Lifecycle.run (Lifecycle.componentDidUpdate prevProps)) w in
  let coarse := exec (componentDidUpdate prevProps) w in
  props fine = props coarse /\ state fine = state coarse /\
  symbols fine = symbols coarse /\ inflight fine = inflight coarse.
Proof.
  unfold exec, Lifecycle.run, Lifecycle.componentDidUpdate, componentDidUpdate,
    Lifecycle.bind, bind.
  rewrite (lift_run this_props). cbn [this_props].
  destruct (tagsChanged (props w) prevProps
            || shouldRefetchData (props w) prevProps).
  - rewrite lifecycle_fetchData_run, fetchData_run. by simpl.
  - by simpl.
Qed.

(** C2, as amended.  Every call of [fetchData], which runs inside
    [componentDidMount] or [componentDidUpdate], whatever requests of
    earlier rounds are still in flight: up to its return it creates the
    symbol, queues the reset and sends the requests of the new round, with
    [this.state] still as it was; once the lifecycle method has returned
    React applies the reset, before anything else of the component runs:
    the facet map is then empty, the total absent and the token the new
    symbol, and the requests of earlier rounds are still in flight. *)
Theorem fetchData_reset_applied_on_return (w : World) :
  let id := mkSymbol (symbols w) "tagsFetchID" in
  let requests := round_requests (props w) id in
  Lifecycle.fetchData [] w =
  (Normal (tt, [fun _ => reset_state id]),
   mkWorld (props w) (state w) (S (symbols w)) (inflight w ++ requests)
           (log w ++ EvSymbol id :: map EvRequest requests)) /\
  (let w' := exec (Lifecycle.run Lifecycle.fetchData) w in
   completion (Lifecycle.run Lifecycle.fetchData) w = Normal tt /\
   tags (state w') = ∅ /\
   totalValues (state w') = None /\
   tagsFetchID (state w') = Some id /\
   inflight w' = inflight w ++ requests /\
   log w' = log w ++ EvSymbol id :: map EvRequest requests
                  ++ [EvSetState (reset_state id)] /\
   state w' = state (exec fetchData w) /\
   inflight w' = inflight (exec fetchData w)) /\
  Forall (fun rq => pending_id rq = id) requests.
Proof.
  intros id requests.
  split; [apply (lifecycle_fetchData_run [] w)|]. split.
  - unfold exec, completion, Lifecycle.run.
    rewrite (lifecycle_fetchData_run [] w), fetchData_run. simpl.
    fold id requests. repeat split.
    by rewrite <- app_assoc.
  - unfold requests, round_requests. apply Forall_app. split.
    + apply Forall_map. by apply Forall_true.
    + by repeat constructor.
Qed.

(** ** Change detection *)

(** C3.  When the facets of the previous and of the next props are the same
    set and the picked parameters of their events payloads are equal, the
    condition of [componentDidUpdate] is false and the update does nothing:
    no symbol is created, no state is set, no request is sent. *)
Theorem no_refetch_when_context_unchanged (prevProps nextProps : Props) :
  (forall facet,
     facet ∈ EventView_tags (eventView nextProps) <->
     facet ∈ EventView_tags (eventView prevProps)) ->
  pickTagParams
    (getEventsAPIPayload (eventView nextProps) (location nextProps))
  = pickTagParams
      (getEventsAPIPayload (eventView prevProps) (location prevProps)) ->
  tagsChanged nextProps prevProps || shouldRefetchData nextProps prevProps
  = false /\
  forall w,
    componentDidUpdate prevProps (receive_props nextProps w)
    = (Normal tt, receive_props nextProps w).
Proof.
  intros Hfacets Hparams.
  assert (Hcond : tagsChanged nextProps prevProps
                  || shouldRefetchData nextProps prevProps = false).
  { unfold tagsChanged, shouldRefetchData, isEqual.
    apply new_Set_eq in Hfacets.
    rewrite (bool_decide_eq_true_2 _ Hfacets).
    by rewrite (bool_decide_eq_true_2 _ Hparams). }
  split; [done|].
  intros w. unfold componentDidUpdate, bind. simpl. by rewrite Hcond.
Qed.

(** C4.  When the facets of the previous and of the next props are not the
    same set, the condition of [componentDidUpdate] is true whatever the
    other parameters are, and the update is a call of [fetchData]: a new
    round starts, with a new token. *)
Theorem refetch_when_facets_differ (prevProps nextProps : Props) :
  ~ (forall facet,
       facet ∈ EventView_tags (eventView nextProps) <->
       facet ∈ EventView_tags (eventView prevProps)) ->
  tagsChanged nextProps prevProps = true /\
  tagsChanged nextProps prevProps || shouldRefetchData nextProps prevProps
  = true /\
  forall w,
    componentDidUpdate prevProps (receive_props nextProps w)
    = fetchData (receive_props nextProps w) /\
    state (exec (componentDidUpdate prevProps) (receive_props nextProps w))
    = reset_state (mkSymbol (symbols w) "tagsFetchID").
Proof.
  intros Hfacets.
  assert (Hchanged : tagsChanged nextProps prevProps = true).
  { unfold tagsChanged, isEqual.
    rewrite bool_decide_eq_false_2; [done|].
    intros Heq. by apply Hfacets, new_Set_eq. }
  split; [done|]. split; [by rewrite Hchanged|].
  intros w.
  assert (Hrun : componentDidUpdate prevProps (receive_props nextProps w)
                 = fetchData (receive_props nextProps w)).
  { unfold componentDidUpdate, bind. simpl. by rewrite Hchanged. }
  split; [done|].
  unfold exec. rewrite Hrun, fetchData_run. reflexivity.
Qed.

(** ** The read view *)

Lemma renderTag_loading (tag : string) (w : World) :
  (tags (state w) !! tag = None /\ inherited tag = false)
  \/ totalValues (state w) = None ->
  renderTag tag w
  = (Normal (mkMeter tag tag [] (totalValues (state w)) true), w).
Proof.
  intros Habsent. unfold renderTag, bind. simpl.
  destruct (tags (state w) !! tag) as [t|] eqn:Htag;
    destruct (totalValues (state w)) as [n|] eqn:Htotal;
    destruct (inherited tag) eqn:Hinherited;
    try reflexivity; by destruct Habsent as [[? ?]|?].
Qed.

Lemma renderTag_ready (tag : string) (w : World) (t : Tag) (n : Z) :
  tags (state w) !! tag = Some t ->
  totalValues (state w) = Some n ->
  let segments := map (set_url tag (location (props w))) (topValues t) in
  renderTag tag w
  = (Normal (mkMeter tag tag segments (Some n) false),
     mkWorld (props w)
       (mkState (<[tag := mkTag segments]> (tags (state w))) (Some n)
                (tagsFetchID (state w)))
       (symbols w) (inflight w) (log w)).
Proof.
  intros Htag Htotal segments. unfold renderTag, bind. simpl.
  rewrite Htag, Htotal. reflexivity.
Qed.

Lemma renderTag_throws (tag : string) (w : World) (n : Z) :
  tags (state w) !! tag = None ->
  inherited tag = true ->
  totalValues (state w) = Some n ->
  renderTag tag w = (Throw TypeError, w).
Proof.
  intros Htag Hinherited Htotal. unfold renderTag, bind. simpl.
  rewrite Htag, Htotal, Hinherited. reflexivity.
Qed.

Lemma merge_facets_keep_total (id : symbol) (rs : list Resolution) (st : State) :
  Forall (fun r => resolution_target r <> None) rs ->
  totalValues (foldl (merge id) st rs) = totalValues st.
Proof.
  revert st. induction rs as [|r rs IH]; intros st Hfacets; [done|].
  inversion Hfacets as [|? ? Hr Hrs]; subst. simpl.
  rewrite IH by done.
  destruct r as [tag val|total]; [|done]. simpl.
  unfold tag_updater. by case_bool_decide.
Qed.

(** Where the loading flag is what the spec says, and where it is not.
    For a facet that is not named like an inherited property [renderTag]
    hands out a meter, loading exactly when the facet has no entry or the
    total is absent; while the total is absent every facet is loading,
    whatever its name.  For a facet named like an inherited property, with
    no entry and the total present, [renderTag] does not flag the facet as
    loading: it throws. *)
Lemma loading_flag :
  (forall (tag : string) (w : World),
     inherited tag = false ->
     exists meter,
       completion (renderTag tag) w = Normal meter /\
       (meter_isLoading meter = true <->
        tags (state w) !! tag = None \/ totalValues (state w) = None)) /\
  (forall (id : symbol) (rs : list Resolution) (w : World) (tag : string),
     Forall (fun r => resolution_target r <> None) rs ->
     state w = foldl (merge id) (reset_state id) rs ->
     exists meter,
       completion (renderTag tag) w = Normal meter /\
       meter_isLoading meter = true) /\
  (forall (tag : string) (w : World) (total : Z),
     inherited tag = true ->
     tags (state w) !! tag = None ->
     totalValues (state w) = Some total ->
     completion (renderTag tag) w = Throw TypeError).
Proof.
  split; [|split].
  - intros tag w Hown. unfold completion.
    destruct (tags (state w) !! tag) as [t|] eqn:Htag;
      [destruct (totalValues (state w)) as [n|] eqn:Htotal|].
    + rewrite (renderTag_ready tag w t n Htag Htotal). simpl.
      eexists. split; [reflexivity|]. simpl. split; [done|].
      by intros [|].
    + rewrite renderTag_loading by (by right).
      eexists. split; [reflexivity|]. simpl. split; [by right|done].
    + rewrite renderTag_loading by (by left).
      eexists. split; [reflexivity|]. simpl. split; [by left|done].
  - intros id rs w tag Hfacets Hstate. unfold completion.
    rewrite renderTag_loading.
    + eexists. split; reflexivity.
    + right. rewrite Hstate. by rewrite merge_facets_keep_total.
  - intros tag w total Hinherited Htag Htotal. unfold completion.
    by rewrite (renderTag_throws tag w total).
Qed.

Lemma set_url_fields (tag : string) (loc : Location) (segment : TagTopValue) :
  url (set_url tag loc segment) = getEventTagSearchUrl tag (value segment) loc /\
  value (set_url tag loc segment) = value segment /\
  count (set_url tag loc segment) = count segment.
Proof. done. Qed.

(** C9, as amended.  [renderTag] sets no state through [setState], sends no
    request and reports nothing; it never changes the total, the token, the
    facets that have an entry, or the entry of another facet.  While the
    facet is loading it leaves the state as it is.  Once the facet and the
    total are present, it overwrites the [url] of each top value stored for
    that facet with the link computed from the facet, the value and the
    location; the values, the counts, the number and the order of the top
    values stay as they were received. *)
Theorem renderTag_writes_only_urls (tag : string) (w : World) :
  let w' := exec (renderTag tag) w in
  (props w' = props w /\ symbols w' = symbols w /\
   inflight w' = inflight w /\ log w' = log w) /\
  totalValues (state w') = totalValues (state w) /\
  tagsFetchID (state w') = tagsFetchID (state w) /\
  dom (tags (state w')) = dom (tags (state w)) /\
  (forall other, other <> tag ->
     tags (state w') !! other = tags (state w) !! other) /\
  (tags (state w) !! tag = None \/ totalValues (state w) = None ->
   state w' = state w) /\
  (forall t,
     tags (state w) !! tag = Some t ->
     exists t',
       tags (state w') !! tag = Some t' /\
       value <$> topValues t' = value <$> topValues t /\
       count <$> topValues t' = count <$> topValues t /\
       (is_Some (totalValues (state w)) ->
        url <$> topValues t'
        = (fun segment =>
             getEventTagSearchUrl tag (value segment) (location (props w)))
          <$> topValues t)).
Proof.
  intros w'. subst w'. unfold exec.
  destruct (tags (state w) !! tag) as [t|] eqn:Htag;
    [destruct (totalValues (state w)) as [n|] eqn:Htotal|].
  - rewrite (renderTag_ready tag w t n Htag Htotal). simpl.
    split; [done|]. split; [done|]. split; [done|]. split.
    { rewrite dom_insert_L. apply subseteq_union_1_L, singleton_subseteq_l.
      by apply elem_of_dom_2 with t. }
    split. { intros other Hne. by rewrite lookup_insert_ne. }
    split. { by intros [|]. }
    intros t0 [= <-]. eexists. split; [apply lookup_insert_eq|]. simpl.
    rewrite <- !list_fmap_compose. by repeat split.
  - rewrite renderTag_loading by (by right). simpl.
    rewrite Htag, Htotal.
    repeat split; try done.
    intros t0 [= <-]. exists t. repeat split. by intros [? ?].
  - assert (Hsame : exec (renderTag tag) w = w).
    { unfold exec.
      destruct (inherited tag) eqn:Hinherited;
        [destruct (totalValues (state w)) as [n|] eqn:Htotal|].
      - by rewrite (renderTag_throws tag w n).
      - by rewrite renderTag_loading by (by right).
      - by rewrite renderTag_loading by (by left). }
    unfold exec in Hsame. rewrite Hsame, Htag.
    repeat split; try done.
Qed.

(** ** Merging the results of one round *)

Lemma merge_token (id : symbol) (st : State) (r : Resolution) :
  tagsFetchID (merge id st r) = tagsFetchID st.
Proof.
  destruct r as [tag val|total]; simpl;
    unfold tag_updater, total_updater; by case_bool_decide.
Qed.

Lemma merge_other_facet (id : symbol) (st : State) (r : Resolution) (tag : string) :
  resolution_target r <> Some tag ->
  tags (merge id st r) !! tag = tags st !! tag.
Proof.
  intros Hne. destruct r as [tag' val|total]; simpl;
    unfold tag_updater, total_updater; case_bool_decide; try done.
  simpl. apply lookup_insert_ne. intros ->. by apply Hne.
Qed.

Lemma merge_comm (id : symbol) (st : State) (r1 r2 : Resolution) :
  resolution_target r1 <> resolution_target r2 ->
  merge id (merge id st r1) r2 = merge id (merge id st r2) r1.
Proof.
  intros Hne.
  destruct (decide (tagsFetchID st = Some id)) as [Hcur|Hstale].
  - destruct r1 as [tag1 val1|total1], r2 as [tag2 val2|total2]; simpl in *;
      rewrite ?(tag_updater_current id _ _ st Hcur),
              ?(total_updater_current id _ st Hcur);
      rewrite ?tag_updater_current, ?total_updater_current by done;
      simpl; try done.
    f_equal. apply insert_insert_ne. congruence.
  - destruct r1 as [tag1 val1|total1], r2 as [tag2 val2|total2]; simpl;
      rewrite ?(tag_updater_stale id _ _ st Hstale),
              ?(total_updater_stale id _ st Hstale);
      by rewrite ?(tag_updater_stale id _ _ st Hstale),
                 ?(total_updater_stale id _ st Hstale).
Qed.

Lemma foldl_merge_token (id : symbol) (rs : list Resolution) (st : State) :
  tagsFetchID (foldl (merge id) st rs) = tagsFetchID st.
Proof.
  revert st. induction rs as [|r rs IH]; intros st; [done|].
  simpl. by rewrite IH, merge_token.
Qed.

Lemma foldl_merge_other_facet (id : symbol) (rs : list Resolution) (st : State)
    (tag : string) :
  Some tag ∉ resolution_target <$> rs ->
  tags (foldl (merge id) st rs) !! tag = tags st !! tag.
Proof.
  revert st. induction rs as [|r rs IH]; intros st Hnotin; [done|].
  simpl in *. apply not_elem_of_cons in Hnotin as [Hr Hrs].
  rewrite IH by done. apply merge_other_facet. congruence.
Qed.

Lemma foldl_merge_no_total (id : symbol) (rs : list Resolution) (st : State) :
  None ∉ resolution_target <$> rs ->
  totalValues (foldl (merge id) st rs) = totalValues st.
Proof.
  intros Hnotin. apply merge_facets_keep_total.
  apply Forall_forall. intros r Hr Hnone. apply Hnotin.
  rewrite <- Hnone. by apply list_elem_of_fmap_2.
Qed.

Lemma foldl_merge_perm (id : symbol) (rs rs' : list Resolution) :
  rs ≡ₚ rs' ->
  forall st,
    NoDup (resolution_target <$> rs) ->
    foldl (merge id) st rs = foldl (merge id) st rs'.
Proof.
  induction 1 as [|r rs rs' Hperm IH|r1 r2 rs|rs1 rs2 rs3 H12 IH12 H23 IH23];
    intros st Hnodup.
  - done.
  - simpl. apply IH. by apply NoDup_cons in Hnodup as [_ ?].
  - simpl. f_equal. apply merge_comm.
    simpl in Hnodup. apply NoDup_cons in Hnodup as [Hnotin _].
    intros Heq. apply Hnotin. rewrite Heq. apply list_elem_of_here.
  - rewrite IH12 by done. apply IH23.
    by rewrite <- H12.
Qed.

(** C6.  Within one round (one token [id], no round start in between) the
    updates of resolutions that fill distinct entries, N facets and the
    total, yield the same state in whatever order they are applied.  Each
    update writes its own entry only: in the current round every facet
    holds its own result at the end, the total holds the resolved total, and
    the entries no resolution is for are as before. *)
Theorem merges_commute (id : symbol) (st : State) (rs rs' : list Resolution) :
  NoDup (resolution_target <$> rs) ->
  rs ≡ₚ rs' ->
  foldl (merge id) st rs = foldl (merge id) st rs' /\
  (tagsFetchID st = Some id ->
   (forall tag val,
      FacetResolved tag val ∈ rs ->
      tags (foldl (merge id) st rs) !! tag = Some val) /\
   (forall total,
      TotalResolved total ∈ rs ->
      totalValues (foldl (merge id) st rs) = Some total)) /\
  (forall tag,
     Some tag ∉ resolution_target <$> rs ->
     tags (foldl (merge id) st rs) !! tag = tags st !! tag) /\
  (None ∉ resolution_target <$> rs ->
   totalValues (foldl (merge id) st rs) = totalValues st).
Proof.
  intros Hnodup Hperm.
  split; [by apply foldl_merge_perm|].
  split; [|split; [intros tag; apply foldl_merge_other_facet
                  |apply foldl_merge_no_total]].
  clear rs' Hperm. revert st Hnodup.
  induction rs as [|r rs IH]; intros st Hnodup Hcur.
  { split; [intros tag val Hin|intros total Hin]; by apply elem_of_nil in Hin. }
  simpl in Hnodup. apply NoDup_cons in Hnodup as [Hnotin Hnodup].
  assert (Hcur' : tagsFetchID (merge id st r) = Some id)
    by (by rewrite merge_token).
  destruct (IH (merge id st r) Hnodup Hcur') as [IHfacet IHtotal].
  split.
  - intros tag val [<-|Hin]%elem_of_cons; [|by apply IHfacet].
    simpl. rewrite foldl_merge_other_facet by done.
    rewrite tag_updater_current by done. apply lookup_insert_eq.
  - intros total [<-|Hin]%elem_of_cons; [|by apply IHtotal].
    simpl. rewrite foldl_merge_no_total by done.
    by rewrite total_updater_current.
Qed.

(** ** Effects of the steps *)

Lemma renderTag_rerendered (tag : string) (w : World) :
  rerendered w (exec (renderTag tag) w).
Proof.
  unfold exec.
  destruct (tags (state w) !! tag) as [t|] eqn:Htag;
    [destruct (totalValues (state w)) as [n|] eqn:Htotal|].
  - rewrite (renderTag_ready tag w t n Htag Htotal). simpl.
    do 4 (split; [done|]). split; [done|]. split; [done|].
    intros other. simpl.
    destruct (decide (tag = other)) as [<-|Hne].
    + rewrite lookup_insert_eq, Htag. by split.
    + by rewrite lookup_insert_ne.
  - rewrite renderTag_loading by (by right). by repeat split.
  - destruct (inherited tag) eqn:Hinherited;
      [destruct (totalValues (state w)) as [n|] eqn:Htotal|].
    + rewrite (renderTag_throws tag w n) by done. by repeat split.
    + rewrite renderTag_loading by (by right). by repeat split.
    + rewrite renderTag_loading by (by left). by repeat split.
Qed.

Lemma rerendered_refl (w : World) : rerendered w w.
Proof. by repeat split. Qed.

Lemma rerendered_trans (w1 w2 w3 : World) :
  rerendered w1 w2 -> rerendered w2 w3 -> rerendered w1 w3.
Proof.
  intros (Hp & Hs & Hi & Hl & Ht & Hk & He) (Hp' & Hs' & Hi' & Hl' & Ht' & Hk' & He').
  repeat split; try congruence.
  - intros Hnone. by apply He, He'.
  - intros Hnone. by apply He', He.
Qed.

Lemma mapM_renderTag_rerendered (l : list string) (w : World) :
  rerendered w (exec (mapM l renderTag) w).
Proof.
  revert w. induction l as [|tag l IH]; intros w.
  { apply rerendered_refl. }
  pose proof (renderTag_rerendered tag w) as Hhead.
  unfold exec in *. simpl. unfold bind.
  destruct (renderTag tag w) as [[meter|err] w1]; simpl in *; [|done].
  pose proof (IH w1) as Htail.
  destruct (mapM l renderTag w1) as [[meters|err] w2]; simpl in *;
    by apply rerendered_trans with w1.
Qed.

Lemma render_rerendered (w : World) : rerendered w (exec render w).
Proof.
  pose proof (mapM_renderTag_rerendered
                (EventView_tags (eventView (props w))) w) as Hframe.
  unfold exec, render, bind in *. by simpl.
Qed.

Lemma componentDidUpdate_cases (prevProps : Props) (w : World) :
  componentDidUpdate prevProps w = fetchData w \/
  componentDidUpdate prevProps w = (Normal tt, w).
Proof.
  unfold componentDidUpdate, bind. simpl.
  destruct (tagsChanged (props w) prevProps
            || shouldRefetchData (props w) prevProps); auto.
Qed.

Lemma tag_continuation_effect tag id settled (w : World) :
  exists st' l',
    exec (tag_continuation tag id settled) w
    = mkWorld (props w) st' (symbols w) (inflight w) (log w ++ l') /\
    minted l' = [] /\
    resolves (Some tag) id (state w) st'.
Proof.
  unfold exec. destruct settled as [val|err].
  - rewrite tag_continuation_fulfilled. simpl.
    eexists _, _. split; [reflexivity|]. split; [done|].
    destruct (decide (tagsFetchID (state w) = Some id)) as [Hcur|Hstale].
    + right. split; [done|]. by exists (FacetResolved tag val).
    + left. by apply tag_updater_stale.
  - rewrite tag_continuation_rejected. simpl.
    eexists _, _. split; [reflexivity|]. split; [done|]. by left.
Qed.

Lemma total_continuation_effect id settled (w : World) :
  exists st' l',
    exec (total_continuation id settled) w
    = mkWorld (props w) st' (symbols w) (inflight w) (log w ++ l') /\
    minted l' = [] /\
    resolves None id (state w) st'.
Proof.
  unfold exec. destruct settled as [total|err].
  - rewrite total_continuation_fulfilled. simpl.
    eexists _, _. split; [reflexivity|]. split; [done|].
    destruct (decide (tagsFetchID (state w) = Some id)) as [Hcur|Hstale].
    + right. split; [done|]. by exists (TotalResolved total).
    + left. by apply total_updater_stale.
  - rewrite total_continuation_rejected. simpl.
    eexists _, _. split; [reflexivity|]. split; [done|]. by left.
Qed.

Lemma resolves_token target id st st' :
  resolves target id st st' -> tagsFetchID st' = tagsFetchID st.
Proof.
  intros [->|(_ & r & _ & ->)]; [done|]. apply merge_token.
Qed.

Lemma merge_facet_total (id : symbol) (st : State) (r : Resolution) :
  resolution_target r <> None ->
  totalValues (merge id st r) = totalValues st.
Proof.
  destruct r as [tag val|total]; [|done]. intros _. simpl.
  unfold tag_updater. by case_bool_decide.
Qed.

Lemma resolves_other_entry target id st st' other :
  resolves target id st st' ->
  other <> target ->
  entry_absent other st -> entry_absent other st'.
Proof.
  intros [->|(_ & r & Hr & ->)] Hne Habsent; [done|].
  destruct other as [tag|]; simpl in *.
  - rewrite merge_other_facet; [done|]. congruence.
  - rewrite merge_facet_total; [done|]. congruence.
Qed.

Lemma same_entries_absent st st' target :
  same_entries st st' -> entry_absent target st -> entry_absent target st'.
Proof.
  intros (Htotal & _ & Htags) Habsent. destruct target as [tag|]; simpl in *.
  - by apply Htags.
  - congruence.
Qed.

Lemma reset_state_absent (id : symbol) (target : option string) :
  entry_absent target (reset_state id).
Proof. destruct target; [apply lookup_empty|done]. Qed.

Lemma minted_requests (l : list Pending) : minted (map EvRequest l) = [].
Proof. induction l; [done|]. by simpl. Qed.

Lemma round_requests_id (p : Props) (id : symbol) (rq : Pending) :
  rq ∈ round_requests p id -> pending_id rq = id.
Proof.
  unfold round_requests. intros [Hin|Hin]%elem_of_app.
  - apply list_elem_of_fmap in Hin as (tag & -> & _). done.
  - apply list_elem_of_singleton in Hin as ->. done.
Qed.

Lemma round_requests_keys (p : Props) (id : symbol) :
  distinct_facets p -> NoDup (pending_key <$> round_requests p id).
Proof.
  intros Hdistinct. unfold round_requests. rewrite fmap_app.
  apply NoDup_app. split; [|split].
  - rewrite <- list_fmap_compose.
    apply NoDup_fmap_2; [|done].
    intros tag1 tag2 Heq. unfold pending_key in Heq. simpl in Heq. congruence.
  - intros key Hin Hlast. simpl in Hlast.
    apply list_elem_of_singleton in Hlast as ->.
    rewrite <- list_fmap_compose in Hin.
    apply list_elem_of_fmap in Hin as (tag & Heq & _). done.
  - simpl. apply NoDup_singleton.
Qed.

Lemma NoDup_middle {A} (l1 l2 : list A) (x y : A) :
  NoDup (l1 ++ x :: l2) -> y ∈ l1 ++ l2 -> y <> x.
Proof.
  intros Hnodup Hin ->.
  apply NoDup_app in Hnodup as (_ & Hdisjoint & Htail).
  apply NoDup_cons in Htail as [Hnotin _].
  apply elem_of_app in Hin as [Hin|Hin]; [|done].
  apply (Hdisjoint x Hin). apply list_elem_of_here.
Qed.

Lemma NoDup_remove_middle {A} (l1 l2 : list A) (x : A) :
  NoDup (l1 ++ x :: l2) -> NoDup (l1 ++ l2).
Proof.
  intros Hnodup.
  apply NoDup_app in Hnodup as (Hl1 & Hdisjoint & Htail).
  apply NoDup_cons in Htail as [_ Hl2].
  apply NoDup_app. split; [done|]. split; [|done].
  intros y Hy Hy2. apply (Hdisjoint y Hy). by apply list_elem_of_further.
Qed.

(** ** Preservation of the invariants *)

Lemma constructed_coherent (p : Props) : coherent (constructed p).
Proof.
  split; simpl.
  - intros rq Hin. by apply elem_of_nil in Hin.
  - apply NoDup_nil_2.
  - intros rq Hin. by apply elem_of_nil in Hin.
Qed.

Lemma fetchData_coherent (w : World) :
  distinct_facets (props w) -> coherent w -> coherent (exec fetchData w).
Proof.
  intros Hdistinct [Hids Hkeys Habsent]. unfold exec. rewrite fetchData_run.
  simpl. set (id := mkSymbol (symbols w) "tagsFetchID").
  split; simpl.
  - intros rq [Hin|Hin]%elem_of_app.
    + specialize (Hids rq Hin). lia.
    + apply round_requests_id in Hin as ->. simpl. lia.
  - rewrite fmap_app. apply NoDup_app. split; [done|]. split.
    + intros key Hold Hnew.
      apply list_elem_of_fmap in Hold as (rq & -> & Hold).
      apply list_elem_of_fmap in Hnew as (rq' & Heq & Hnew).
      apply round_requests_id in Hnew.
      specialize (Hids rq Hold).
      assert (pending_id rq = id) as Hid
        by (unfold pending_key in Heq; congruence).
      rewrite Hid in Hids. simpl in Hids. lia.
    + by apply round_requests_keys.
  - intros rq _ _. apply reset_state_absent.
Qed.

Lemma rerendered_coherent (w w' : World) :
  rerendered w w' -> coherent w -> coherent w'.
Proof.
  intros (_ & Hsymbols & Hinflight & _ & Hentries) [Hids Hkeys Habsent].
  split; rewrite ?Hinflight, ?Hsymbols; try done.
  intros rq Hin Hcur. apply (same_entries_absent (state w)); [done|].
  apply Habsent; [done|]. destruct Hentries as (_ & <- & _). done.
Qed.

Lemma settled_coherent (w : World) before rq after st' l' :
  inflight w = before ++ rq :: after ->
  resolves (pending_target rq) (pending_id rq) (state w) st' ->
  coherent w ->
  coherent (mkWorld (props w) st' (symbols w) (before ++ after) (log w ++ l')).
Proof.
  intros Hinflight Hresolves [Hids Hkeys Habsent].
  rewrite Hinflight in Hids, Hkeys, Habsent.
  assert (Hsub : forall rq', rq' ∈ before ++ after ->
                             rq' ∈ before ++ rq :: after).
  { intros rq' [Hin|Hin]%elem_of_app; apply elem_of_app; [by left|right].
    by apply list_elem_of_further. }
  split; simpl.
  - intros rq' Hin. by apply Hids, Hsub.
  - rewrite fmap_app, fmap_cons in Hkeys. rewrite fmap_app.
    by apply NoDup_remove_middle in Hkeys.
  - intros rq' Hin Hcur.
    rewrite (resolves_token _ _ _ _ Hresolves) in Hcur.
    specialize (Habsent rq' (Hsub rq' Hin) Hcur).
    destruct Hresolves as [->|(Hcur' & Hmerge)]; [done|].
    apply (resolves_other_entry (pending_target rq) (pending_id rq) (state w));
      [right; by split| |done].
    assert (Hkey : pending_key rq' <> pending_key rq).
    { rewrite fmap_app, fmap_cons in Hkeys.
      apply (NoDup_middle _ _ _ _ Hkeys).
      rewrite <- fmap_app. by apply list_elem_of_fmap_2. }
    unfold pending_key in Hkey. intros Htarget. apply Hkey.
    f_equal; [done|]. congruence.
Qed.

Lemma step_coherent (w w' : World) :
  step distinct_facets w w' -> coherent w -> coherent w'.
Proof.
  intros Hstep Hcoherent. destruct Hstep as
    [w nextProps Hadm|w
    |w before after client orgSlug tag q id settled Hinflight
    |w before after client orgSlug q id settled Hinflight].
  - assert (Hreceived : coherent (receive_props nextProps w))
      by (by destruct Hcoherent).
    unfold exec.
    destruct (componentDidUpdate_cases (props w) (receive_props nextProps w))
      as [-> | ->]; [|done].
    by apply fetchData_coherent.
  - eapply rerendered_coherent; [apply render_rerendered|done].
  - destruct (tag_continuation_effect tag id settled (settle (before ++ after) w))
      as (st' & l' & -> & _ & Hresolves). simpl in *.
    by eapply (settled_coherent w before _ after).
  - destruct (total_continuation_effect id settled (settle (before ++ after) w))
      as (st' & l' & -> & _ & Hresolves). simpl in *.
    by eapply (settled_coherent w before _ after).
Qed.

Lemma reachable_coherent (p : Props) (w : World) :
  distinct_facets p -> reachable distinct_facets p w -> coherent w.
Proof.
  intros Hdistinct Hreach.
  apply (rtc_ind_r (R := step distinct_facets) (fun w => coherent w) (mounted p)) with (z := w);
    [|intros w1 w2 _ Hstep IH|exact Hreach].
  - apply fetchData_coherent; [done|apply constructed_coherent].
  - by eapply step_coherent.
Qed.






Lemma constructed_tokens_fresh (p : Props) : tokens_fresh (constructed p).
Proof.
  split; simpl.
  - intros id Hin. by apply elem_of_nil in Hin.
  - apply NoDup_nil_2.
  - done.
Qed.

Lemma fetchData_minted (w : World) :
  minted (log (exec fetchData w))
  = minted (log w) ++ [mkSymbol (symbols w) "tagsFetchID"].
Proof.
  unfold exec. rewrite fetchData_run. simpl.
  rewrite minted_app. simpl. by rewrite minted_requests.
Qed.

Lemma fetchData_tokens_fresh (w : World) :
  tokens_fresh w -> tokens_fresh (exec fetchData w).
Proof.
  intros [Hbelow Hnodup Hcurrent].
  split; rewrite ?fetchData_minted.
  - unfold exec. rewrite fetchData_run. simpl.
    intros id [Hin|Hin]%elem_of_app.
    + specialize (Hbelow id Hin). lia.
    + apply list_elem_of_singleton in Hin as ->. simpl. lia.
  - apply NoDup_app. split; [done|]. split; [|apply NoDup_singleton].
    intros id Hin Hnew. apply list_elem_of_singleton in Hnew as ->.
    specialize (Hbelow _ Hin). simpl in Hbelow. lia.
  - rewrite last_snoc. unfold exec. by rewrite fetchData_run.
Qed.

Lemma rerendered_tokens_fresh (w w' : World) :
  rerendered w w' -> tokens_fresh w -> tokens_fresh w'.
Proof.
  intros (_ & Hsymbols & _ & Hlog & _ & Htoken & _) [Hbelow Hnodup Hcurrent].
  split; rewrite ?Hlog, ?Hsymbols, ?Htoken; done.
Qed.

Lemma settled_tokens_fresh target id (w : World) rest st' l' :
  minted l' = [] ->
  resolves target id (state w) st' ->
  tokens_fresh w ->
  tokens_fresh (mkWorld (props w) st' (symbols w) rest (log w ++ l')).
Proof.
  intros Hl' Hresolves [Hbelow Hnodup Hcurrent].
  split; simpl; rewrite ?minted_app, ?Hl', ?app_nil_r; try done.
  by rewrite (resolves_token _ _ _ _ Hresolves).
Qed.

Lemma step_tokens_fresh admissible (w w' : World) :
  step admissible w w' -> tokens_fresh w -> tokens_fresh w'.
Proof.
  intros Hstep Hfresh. destruct Hstep as
    [w nextProps Hadm|w
    |w before after client orgSlug tag q id settled Hinflight
    |w before after client orgSlug q id settled Hinflight].
  - assert (Hreceived : tokens_fresh (receive_props nextProps w))
      by (by destruct Hfresh).
    unfold exec.
    destruct (componentDidUpdate_cases (props w) (receive_props nextProps w))
      as [-> | ->]; [|done].
    by apply fetchData_tokens_fresh.
  - eapply rerendered_tokens_fresh; [apply render_rerendered|done].
  - destruct (tag_continuation_effect tag id settled (settle (before ++ after) w))
      as (st' & l' & -> & Hl' & Hresolves). simpl in *.
    by eapply (settled_tokens_fresh _ _ w).
  - destruct (total_continuation_effect id settled (settle (before ++ after) w))
      as (st' & l' & -> & Hl' & Hresolves). simpl in *.
    by eapply (settled_tokens_fresh _ _ w).
Qed.

Lemma lifetime_tokens_fresh admissible (p : Props) (w : World) :
  lifetime admissible p w -> tokens_fresh w.
Proof.
  intros [->|Hreach]; [apply constructed_tokens_fresh|].
  apply (rtc_ind_r (R := step admissible) (fun w => tokens_fresh w) (mounted p)) with (z := w);
    [|intros w1 w2 _ Hstep IH|exact Hreach].
  - apply fetchData_tokens_fresh, constructed_tokens_fresh.
  - by eapply step_tokens_fresh.
Qed.


(** ** Failures of the transport *)






(** ** Round tokens *)


(** ** The whole render *)

Lemma annotate_idem (tag : string) (loc : Location) (t : Tag) :
  annotate tag loc (annotate tag loc t) = annotate tag loc t.
Proof.
  unfold annotate. simpl. f_equal. rewrite map_map.
  apply map_ext. by intros segment.
Qed.

Lemma annotate_same_values (tag : string) (loc : Location) (t : Tag) :
  same_values t (annotate tag loc t).
Proof.
  unfold same_values, annotate. simpl.
  split; rewrite <- list_fmap_compose; by apply list_fmap_ext.
Qed.

Lemma insert_annotate (tag : string) (loc : Location) (t : Tag)
    (m : gmap string Tag) :
  m !! tag = Some t ->
  <[tag := annotate tag loc t]> m = alter (annotate tag loc) tag m.
Proof.
  intros Htag. apply map_eq. intros other.
  destruct (decide (tag = other)) as [<-|Hne].
  - by rewrite lookup_insert_eq, lookup_alter_eq, Htag.
  - by rewrite lookup_insert_ne, lookup_alter_ne.
Qed.

Lemma with_tags_id (w : World) : with_tags (tags (state w)) w = w.
Proof. by destruct w as [p [m total token] n rqs l]. Qed.

Lemma renderTag_run (tag : string) (w : World) :
  renderTag tag w
  = if throws (state w) tag then (Throw TypeError, w)
    else (Normal (meter_of (location (props w)) (state w) tag),
          with_tags (annotate_tags (location (props w)) (state w) [tag]) w).
Proof.
  unfold throws.
  destruct (tags (state w) !! tag) as [t|] eqn:Htag;
    [destruct (totalValues (state w)) as [n|] eqn:Htotal|]; simpl.
  - rewrite (renderTag_ready tag w t n Htag Htotal).
    unfold meter_of, annotate_tags, with_tags. rewrite Htag, Htotal. simpl.
    by rewrite <- (insert_annotate tag _ t).
  - rewrite renderTag_loading by (by right).
    unfold meter_of, annotate_tags. rewrite Htag, Htotal.
    by rewrite with_tags_id.
  - destruct (inherited tag) eqn:Hinherited;
      [destruct (totalValues (state w)) as [n|] eqn:Htotal|]; simpl.
    + by rewrite (renderTag_throws tag w n).
    + rewrite renderTag_loading by (by right).
      unfold meter_of, annotate_tags. rewrite Htag, Htotal.
      by rewrite with_tags_id.
    + rewrite renderTag_loading by (by left).
      unfold meter_of, annotate_tags. rewrite Htag.
      destruct (totalValues (state w)) as [n|]; simpl;
        rewrite ?alter_id' by done; by rewrite with_tags_id.
Qed.

Lemma lookup_annotate_foldl (loc : Location) (l : list string)
    (m : gmap string Tag) (k : string) :
  foldl (fun m tag => alter (annotate tag loc) tag m) m l !! k
  = if decide (k ∈ l) then annotate k loc <$> m !! k else m !! k.
Proof.
  revert m. induction l as [|tag l IH]; intros m; [done|].
  simpl. rewrite IH.
  destruct (decide (tag = k)) as [->|Hne].
  - rewrite lookup_alter_eq, (decide_True (P := k ∈ k :: l))
      by apply list_elem_of_here.
    destruct (decide (k ∈ l)); [|done].
    destruct (m !! k) as [t|]; [|done]. simpl. by rewrite annotate_idem.
  - rewrite lookup_alter_ne by done.
    destruct (decide (k ∈ l)) as [Hin|Hnotin].
    + rewrite decide_True; [done|]. by apply list_elem_of_further.
    + rewrite decide_False; [done|].
      intros [Heq|Hin]%elem_of_cons; [by apply Hne|by apply Hnotin].
Qed.

Lemma lookup_annotate_tags (loc : Location) (st : State) (l : list string)
    (k : string) :
  annotate_tags loc st l !! k = tags st !! k \/
  annotate_tags loc st l !! k = annotate k loc <$> tags st !! k.
Proof.
  unfold annotate_tags. destruct (totalValues st); [|by left].
  rewrite lookup_annotate_foldl. destruct (decide (k ∈ l)); auto.
Qed.

Lemma meter_of_annotated (loc : Location) (st st' : State) (tag : string) :
  totalValues st' = totalValues st ->
  (tags st' !! tag = tags st !! tag \/
   tags st' !! tag = annotate tag loc <$> tags st !! tag) ->
  meter_of loc st' tag = meter_of loc st tag.
Proof.
  intros Htotal [Hsame|Hannotated]; unfold meter_of; rewrite Htotal.
  - by rewrite Hsame.
  - rewrite Hannotated. destruct (tags st !! tag) as [t|]; [|done]. simpl.
    destruct (totalValues st); [|done].
    f_equal. rewrite map_map. apply map_ext. by intros segment.
Qed.

Lemma annotate_tags_cons (loc : Location) (w : World) (tag : string)
    (l : list string) :
  annotate_tags loc
    (state (with_tags (annotate_tags loc (state w) [tag]) w)) l
  = annotate_tags loc (state w) (tag :: l).
Proof.
  unfold annotate_tags, with_tags. simpl.
  by destruct (totalValues (state w)).
Qed.

Lemma throws_annotated (loc : Location) (w : World) (l : list string)
    (tag : string) :
  throws (state (with_tags (annotate_tags loc (state w) l) w)) tag
  = throws (state w) tag.
Proof.
  unfold throws, with_tags. simpl. f_equal. f_equal.
  apply bool_decide_ext.
  destruct (lookup_annotate_tags loc (state w) l tag) as [-> | ->]; [done|].
  by destruct (tags (state w) !! tag).
Qed.

Lemma rendered_facets_ext (st st' : State) (l : list string) :
  (forall tag, throws st' tag = throws st tag) ->
  rendered_facets st' l = rendered_facets st l /\
  forallb (fun tag => negb (throws st' tag)) l
  = forallb (fun tag => negb (throws st tag)) l.
Proof.
  intros Hext. induction l as [|tag l [IH1 IH2]]; [done|].
  simpl. rewrite Hext, IH1, IH2. done.
Qed.

Lemma mapM_renderTag_run (l : list string) (w : World) :
  mapM l renderTag w
  = (if forallb (fun tag => negb (throws (state w) tag)) l
     then Normal (meter_of (location (props w)) (state w) <$> l)
     else Throw TypeError,
     with_tags
       (annotate_tags (location (props w)) (state w)
          (rendered_facets (state w) l)) w).
Proof.
  revert w. induction l as [|tag l IH]; intros w.
  { simpl. unfold ret.
    assert (annotate_tags (location (props w)) (state w) [] = tags (state w))
      as -> by (unfold annotate_tags; by destruct (totalValues (state w))).
    by rewrite with_tags_id. }
  assert (Hnil : annotate_tags (location (props w)) (state w) []
                 = tags (state w))
    by (unfold annotate_tags; by destruct (totalValues (state w))).
  simpl. unfold bind. rewrite renderTag_run.
  destruct (throws (state w) tag) eqn:Hthrows; simpl.
  { by rewrite Hnil, with_tags_id. }
  rewrite IH. cbv beta iota.
  change (props (with_tags ?m w)) with (props w).
  destruct (rendered_facets_ext (state w)
              (state (with_tags
                        (annotate_tags (location (props w)) (state w) [tag]) w))
              l (throws_annotated _ w [tag])) as [-> ->].
  rewrite annotate_tags_cons.
  change (with_tags ?m' (with_tags ?m w)) with (with_tags m' w).
  destruct (forallb (fun tag0 => negb (throws (state w) tag0)) l); [|done].
  unfold ret. f_equal. f_equal. f_equal.
  apply list_fmap_ext. intros i facet _.
  apply meter_of_annotated; [done|]. apply lookup_annotate_tags.
Qed.

Lemma render_run (w : World) :
  let loc := location (props w) in
  let facets := EventView_tags (eventView (props w)) in
  render w
  = (if forallb (fun tag => negb (throws (state w) tag)) facets
     then Normal (meter_of loc (state w) <$> facets)
     else Throw TypeError,
     with_tags (annotate_tags loc (state w) (rendered_facets (state w) facets))
       w).
Proof.
  intros loc facets. unfold render, bind. simpl.
  apply mapM_renderTag_run.
Qed.

Lemma annotate_tags_idem (loc : Location) (w : World) (l : list string) :
  annotate_tags loc (state (with_tags (annotate_tags loc (state w) l) w)) l
  = annotate_tags loc (state w) l.
Proof.
  unfold annotate_tags, with_tags. simpl.
  destruct (totalValues (state w)); [|done].
  apply map_eq. intros k. rewrite !lookup_annotate_foldl.
  destruct (decide (k ∈ l)); [|done].
  destruct (tags (state w) !! k) as [t|]; [|done]. simpl.
  by rewrite annotate_idem.
Qed.

Lemma throws_total_absent (st : State) (tag : string) :
  totalValues st = None -> throws st tag = false.
Proof.
  intros Htotal. unfold throws. rewrite Htotal.
  by rewrite (bool_decide_eq_false_2 (is_Some None)), andb_false_r
    by (by intros [? ?]).
Qed.

Lemma safe_facets (st : State) (l : list string) :
  forallb (fun tag => negb (throws st tag)) l = true
  <-> Forall (fun facet => throws st facet = false) l.
Proof.
  induction l as [|tag l IH]; simpl.
  { split; [constructor|done]. }
  rewrite andb_true_iff, negb_true_iff, IH, Forall_cons. done.
Qed.

(** X1.  [render] hands the renderer one meter per facet of
    [eventView.tags], in their order, keyed and titled by the facet and
    carrying the total of the state, unless [renderTag] throws for one of
    them, that is, unless a listed facet is named like an inherited
    property and has no entry while the total is present: then [render]
    throws.  A meter is flagged as loading exactly when the facet had no
    entry or the total was absent when the render began, and then has no
    segments; otherwise its segments are the stored top values with their
    links set.  While the total is absent, rendering never throws and writes
    nothing. *)
Theorem render_one_meter_per_facet (w : World) :
  let facets := EventView_tags (eventView (props w)) in
  (Forall (fun facet => throws (state w) facet = false) facets ->
   exists meters,
     completion render w = Normal meters /\
     meter_key <$> meters = facets /\
     meter_title <$> meters = facets /\
     Forall
       (fun meter =>
          meter_totalValues meter = totalValues (state w) /\
          (meter_isLoading meter = true <->
           tags (state w) !! meter_key meter = None \/
           totalValues (state w) = None) /\
          (meter_isLoading meter = true -> meter_segments meter = []) /\
          (forall t,
             meter_isLoading meter = false ->
             tags (state w) !! meter_key meter = Some t ->
             meter_segments meter
             = map (set_url (meter_key meter) (location (props w)))
                   (topValues t)))
       meters) /\
  (Exists (fun facet => throws (state w) facet = true) facets ->
   completion render w = Throw TypeError) /\
  (totalValues (state w) = None ->
   Forall (fun facet => throws (state w) facet = false) facets /\
   exec render w = w).
Proof.
  intros facets. unfold completion, exec. rewrite render_run. fold facets.
  simpl. split; [|split].
  - intros Hsafe.
    assert (forallb (fun tag => negb (throws (state w) tag)) facets = true)
      as -> by (by apply safe_facets).
    eexists. split; [reflexivity|].
    assert (Hmeter : forall facet,
      meter_key (meter_of (location (props w)) (state w) facet) = facet /\
      meter_title (meter_of (location (props w)) (state w) facet) = facet).
    { intros facet. unfold meter_of.
      by destruct (tags (state w) !! facet), (totalValues (state w)). }
    split; [|split].
    + rewrite <- list_fmap_compose. rewrite <- (list_fmap_id facets) at 2.
      apply list_fmap_ext. intros i facet _. apply Hmeter.
    + rewrite <- list_fmap_compose. rewrite <- (list_fmap_id facets) at 2.
      apply list_fmap_ext. intros i facet _. apply Hmeter.
    + apply Forall_fmap, Forall_forall. intros facet _. simpl.
      unfold meter_of.
      destruct (tags (state w) !! facet) as [t|] eqn:Htag;
        [destruct (totalValues (state w)) as [n|] eqn:Htotal|]; simpl.
      * rewrite Htag. split; [done|]. split; [|split; [done|]].
        -- split; [done|]. by intros [|].
        -- by intros t' _ [= <-].
      * rewrite Htag. split; [done|]. split; [|split; [done|done]].
        split; [by right|done].
      * rewrite Htag. split; [done|]. split; [|split; [done|done]].
        split; [by left|done].
  - intros Hthrows.
    assert (forallb (fun tag => negb (throws (state w) tag)) facets = false)
      as ->; [|done].
    apply not_true_is_false. intros Hall. apply safe_facets in Hall.
    apply Exists_exists in Hthrows as (facet & Hin & Hfacet).
    rewrite Forall_forall in Hall. specialize (Hall facet Hin).
    by rewrite Hfacet in Hall.
  - intros Htotal. split.
    + apply Forall_forall. intros facet _. by apply throws_total_absent.
    + unfold annotate_tags. rewrite Htotal. apply with_tags_id.
Qed.

(** X2.  Rendering is idempotent: a second render leaves the state as the
    first one left it and hands out the same meters. *)
Theorem render_idempotent (w : World) :
  exec render (exec render w) = exec render w /\
  completion render (exec render w) = completion render w.
Proof.
  unfold exec, completion. rewrite (render_run w). cbv zeta. cbn [fst snd].
  rewrite render_run. cbv zeta. cbn [fst snd].
  change (props (with_tags ?m w)) with (props w).
  destruct (rendered_facets_ext (state w)
              (state (with_tags
                        (annotate_tags (location (props w)) (state w)
                           (rendered_facets (state w)
                              (EventView_tags (eventView (props w))))) w))
              (EventView_tags (eventView (props w)))
              (throws_annotated _ w _)) as [-> ->].
  rewrite annotate_tags_idem.
  change (with_tags ?m' (with_tags ?m w)) with (with_tags m' w).
  split; [done|].
  destruct (forallb _ _); [|done].
  f_equal. apply list_fmap_ext. intros i facet _.
  apply meter_of_annotated; [done|]. apply lookup_annotate_tags.
Qed.

(** ** More on change detection *)

(** X3.  [componentDidUpdate] starts a round exactly when the facets are not
    the same set or the picked parameters differ.  In particular a change of
    the picked parameters alone starts one, and a change of [api] or
    [organization] alone does not: neither is looked at. *)
Theorem refetch_exactly_when_context_changed (prevProps nextProps : Props) :
  let params p :=
    pickTagParams (getEventsAPIPayload (eventView p) (location p)) in
  (tagsChanged nextProps prevProps || shouldRefetchData nextProps prevProps
   = true <->
   ~ (forall facet,
        facet ∈ EventView_tags (eventView nextProps) <->
        facet ∈ EventView_tags (eventView prevProps))
   \/ params nextProps <> params prevProps) /\
  (params nextProps <> params prevProps ->
   shouldRefetchData nextProps prevProps = true /\
   forall w,
     componentDidUpdate prevProps (receive_props nextProps w)
     = fetchData (receive_props nextProps w)) /\
  (forall client org w,
     let swapped :=
       mkProps client org (eventView prevProps) (location prevProps) in
     componentDidUpdate prevProps (receive_props swapped w)
     = (Normal tt, receive_props swapped w)).
Proof.
  intros params.
  assert (Hshould : params nextProps <> params prevProps ->
                    shouldRefetchData nextProps prevProps = true).
  { intros Hne. unfold shouldRefetchData, isEqual.
    by rewrite bool_decide_eq_false_2. }
  split; [|split].
  - split.
    + intros [Hchanged|Hshould']%orb_true_iff.
      * left. intros Hsame. apply new_Set_eq in Hsame.
        unfold tagsChanged, isEqual in Hchanged.
        by rewrite (bool_decide_eq_true_2 _ Hsame) in Hchanged.
      * right. intros Hsame.
        unfold shouldRefetchData, isEqual in Hshould'.
        by rewrite (bool_decide_eq_true_2 _ Hsame) in Hshould'.
    + intros [Hfacets|Hparams]; apply orb_true_iff.
      * left. unfold tagsChanged, isEqual.
        rewrite bool_decide_eq_false_2; [done|].
        intros Heq. by apply Hfacets, new_Set_eq.
      * right. by apply Hshould.
  - intros Hparams. split; [by apply Hshould|].
    intros w. unfold componentDidUpdate, bind. simpl.
    rewrite (Hshould Hparams). by rewrite orb_true_r.
  - intros client org w swapped.
    unfold componentDidUpdate, bind. simpl.
    unfold tagsChanged, shouldRefetchData, isEqual. simpl.
    by rewrite !bool_decide_eq_true_2.
Qed.

(** ** Facets of the state *)

Lemma round_requests_listed (p : Props) (id : symbol) (rq : Pending)
    (tag : string) :
  rq ∈ round_requests p id ->
  pending_target rq = Some tag ->
  tag ∈ EventView_tags (eventView p).
Proof.
  unfold round_requests. intros [Hin|Hin]%elem_of_app Htarget.
  - apply list_elem_of_fmap in Hin as (tag' & -> & Hin).
    simpl in Htarget. by injection Htarget as <-.
  - apply list_elem_of_singleton in Hin as ->. discriminate.
Qed.

Lemma constructed_listed (p : Props) : listed (constructed p).
Proof.
  split; simpl.
  - intros rq Hin. by apply elem_of_nil in Hin.
  - intros rq tag Hin. by apply elem_of_nil in Hin.
  - intros tag [t Ht]. by rewrite lookup_empty in Ht.
Qed.

Lemma fetchData_listed (w : World) :
  (forall rq, rq ∈ inflight w -> symbol_id (pending_id rq) < symbols w) ->
  listed (exec fetchData w).
Proof.
  intros Hids. unfold exec. rewrite fetchData_run.
  split; simpl.
  - intros rq [Hin|Hin]%elem_of_app.
    + specialize (Hids rq Hin). lia.
    + apply round_requests_id in Hin as ->. simpl. lia.
  - intros rq tag [Hin|Hin]%elem_of_app Hcur Htarget.
    + specialize (Hids rq Hin). injection Hcur as Hcur.
      rewrite <- Hcur in Hids. simpl in Hids. lia.
    + by apply (round_requests_listed (props w) _ rq tag Hin).
  - intros tag [t Ht]. by rewrite lookup_empty in Ht.
Qed.

Lemma tagsChanged_false (thisProps prevProps : Props) (facet : string) :
  tagsChanged thisProps prevProps = false ->
  facet ∈ EventView_tags (eventView prevProps) ->
  facet ∈ EventView_tags (eventView thisProps).
Proof.
  unfold tagsChanged, isEqual. intros Hsame%negb_false_iff Hin.
  apply bool_decide_eq_true_1 in Hsame.
  by apply (proj1 (new_Set_eq _ _) Hsame).
Qed.

Lemma componentDidUpdate_listed (nextProps : Props) (w : World) :
  listed w ->
  listed (exec (componentDidUpdate (props w)) (receive_props nextProps w)).
Proof.
  intros [Hids Hrequests Hentries]. unfold exec, componentDidUpdate, bind.
  simpl.
  destruct (tagsChanged nextProps (props w)) eqn:Hchanged; simpl.
  { by apply fetchData_listed. }
  destruct (shouldRefetchData nextProps (props w)).
  { by apply fetchData_listed. }
  split; simpl; [done| |].
  - intros rq tag Hin Hcur Htarget.
    apply (tagsChanged_false _ _ _ Hchanged). by apply (Hrequests rq).
  - intros tag Hsome.
    apply (tagsChanged_false _ _ _ Hchanged). by apply Hentries.
Qed.

Lemma rerendered_listed (w w' : World) :
  rerendered w w' -> listed w -> listed w'.
Proof.
  intros (Hprops & Hsymbols & Hinflight & _ & _ & Htoken & Htags)
         [Hids Hrequests Hentries].
  split; rewrite ?Hinflight, ?Hsymbols, ?Hprops, ?Htoken; try done.
  intros tag Hsome. apply Hentries.
  apply not_eq_None_Some. intros Hnone. apply Htags in Hnone.
  rewrite Hnone in Hsome. by destruct Hsome.
Qed.

Lemma settled_listed (w : World) before rq after st' l' :
  inflight w = before ++ rq :: after ->
  resolves (pending_target rq) (pending_id rq) (state w) st' ->
  listed w ->
  listed (mkWorld (props w) st' (symbols w) (before ++ after) (log w ++ l')).
Proof.
  intros Hinflight Hresolves [Hids Hrequests Hentries].
  rewrite Hinflight in Hids, Hrequests.
  assert (Hsub : forall rq', rq' ∈ before ++ after ->
                             rq' ∈ before ++ rq :: after).
  { intros rq' [Hin|Hin]%elem_of_app; apply elem_of_app; [by left|right].
    by apply list_elem_of_further. }
  assert (Hrq : rq ∈ before ++ rq :: after).
  { apply elem_of_app. right. apply list_elem_of_here. }
  split; simpl.
  - intros rq' Hin. by apply Hids, Hsub.
  - intros rq' tag Hin Hcur Htarget.
    rewrite (resolves_token _ _ _ _ Hresolves) in Hcur.
    by apply (Hrequests rq'); [apply Hsub| |].
  - intros tag Hsome.
    destruct Hresolves as [->|(Hcur & r & Htarget & ->)]; [by apply Hentries|].
    destruct (decide (resolution_target r = Some tag)) as [Heq|Hne].
    + apply (Hrequests rq); [done|done|congruence].
    + rewrite merge_other_facet in Hsome by done. by apply Hentries.
Qed.

Lemma step_listed admissible (w w' : World) :
  step admissible w w' -> listed w -> listed w'.
Proof.
  intros Hstep Hlisted. destruct Hstep as
    [w nextProps Hadm|w
    |w before after client orgSlug tag q id settled Hinflight
    |w before after client orgSlug q id settled Hinflight].
  - by apply componentDidUpdate_listed.
  - eapply rerendered_listed; [apply render_rerendered|done].
  - destruct (tag_continuation_effect tag id settled (settle (before ++ after) w))
      as (st' & l' & -> & _ & Hresolves). simpl in *.
    by eapply (settled_listed w before _ after).
  - destruct (total_continuation_effect id settled (settle (before ++ after) w))
      as (st' & l' & -> & _ & Hresolves). simpl in *.
    by eapply (settled_listed w before _ after).
Qed.

(** X4.  Between the synchronous steps of React (after construction, after
    the mount, after a change of props once its [componentDidUpdate] has
    run, after a render, after the continuation of a settled request),
    whatever the order in which props change and requests settle, every
    facet that has an entry in the state is one of the facets of the current
    props: a result of a superseded round never shows up under a facet the
    context no longer lists.  (The render between the arrival of props and
    their [componentDidUpdate] still sees the entries of the old context;
    it is not one of these moments.) *)
Theorem entries_are_facets_of_the_props
    (admissible : Props -> Prop) (p : Props) (w : World) :
  lifetime admissible p w ->
  forall tag,
    is_Some (tags (state w) !! tag) ->
    tag ∈ EventView_tags (eventView (props w)).
Proof.
  intros Hlife. apply listed_entries.
  destruct Hlife as [->|Hreach]; [apply constructed_listed|].
  apply (rtc_ind_r (R := step admissible) (fun w => listed w) (mounted p))
    with (z := w); [|intros w1 w2 _ Hstep IH|exact Hreach].
  - apply fetchData_listed. intros rq Hin. by apply elem_of_nil in Hin.
  - by eapply step_listed.
Qed.

(** ** From arrival to display *)


(** ** What has arrived stays *)

Lemma same_values_refl (t : Tag) : same_values t t.
Proof. by split. Qed.

Lemma same_values_trans (t1 t2 t3 : Tag) :
  same_values t1 t2 -> same_values t2 t3 -> same_values t1 t3.
Proof. intros [Hv Hc] [Hv' Hc']. split; congruence. Qed.

Lemma kept_refl (st : State) : kept st st.
Proof.
  split; [done|]. intros tag t Ht. exists t. split; [done|].
  apply same_values_refl.
Qed.

Lemma kept_trans (st1 st2 st3 : State) :
  kept st1 st2 -> kept st2 st3 -> kept st1 st3.
Proof.
  intros [Htotal Htags] [Htotal' Htags']. split.
  - intros total Ht. by apply Htotal', Htotal.
  - intros tag t Ht.
    destruct (Htags tag t Ht) as (t2 & Ht2 & Hsame).
    destruct (Htags' tag t2 Ht2) as (t3 & Ht3 & Hsame').
    exists t3. split; [done|]. by apply same_values_trans with t2.
Qed.

Lemma render_kept (w : World) : kept (state w) (state (exec render w)).
Proof.
  unfold exec. rewrite render_run. simpl. split; [done|].
  intros tag t Ht. simpl.
  destruct (lookup_annotate_tags (location (props w)) (state w)
              (rendered_facets (state w)
                 (EventView_tags (eventView (props w)))) tag) as [-> | ->];
    rewrite Ht; simpl.
  - exists t. split; [done|]. apply same_values_refl.
  - eexists. split; [done|]. apply annotate_same_values.
Qed.

Lemma resolves_kept target id (st st' : State) :
  resolves target id st st' ->
  (tagsFetchID st = Some id -> entry_absent target st) ->
  kept st st'.
Proof.
  intros [->|(Hcur & r & Htarget & ->)] Habsent; [apply kept_refl|].
  specialize (Habsent Hcur). split.
  - intros total Htotal. rewrite merge_facet_total; [done|].
    rewrite Htarget. intros ->. simpl in Habsent. congruence.
  - intros tag t Ht. exists t. split; [|apply same_values_refl].
    rewrite merge_other_facet; [done|].
    rewrite Htarget. intros ->. simpl in Habsent. congruence.
Qed.

Lemma fetchData_token (w : World) :
  tagsFetchID (state (exec fetchData w))
  = Some (mkSymbol (symbols w) "tagsFetchID") /\
  symbols (exec fetchData w) = S (symbols w).
Proof. unfold exec. by rewrite fetchData_run. Qed.

Lemma step_token admissible (w w' : World) :
  step admissible w w' ->
  symbols w <= symbols w' /\
  (tagsFetchID (state w') = tagsFetchID (state w) /\
   (coherent w -> kept (state w) (state w')) \/
   tagsFetchID (state w') = Some (mkSymbol (symbols w) "tagsFetchID")).
Proof.
  intros Hstep. destruct Hstep as
    [w nextProps Hadm|w
    |w before after client orgSlug tag q id settled Hinflight
    |w before after client orgSlug q id settled Hinflight].
  - unfold exec.
    destruct (componentDidUpdate_cases (props w) (receive_props nextProps w))
      as [-> | ->].
    + destruct (fetchData_token (receive_props nextProps w)) as [Htoken Hsym].
      unfold exec in Htoken, Hsym. rewrite Hsym. simpl. split; [lia|].
      by right.
    + simpl. split; [done|]. left. split; [done|]. intros _. apply kept_refl.
  - destruct (render_rerendered w) as (_ & Hsym & _ & _ & _ & Htoken & _).
    rewrite Hsym. split; [done|]. left. split; [done|].
    intros _. apply render_kept.
  - destruct (tag_continuation_effect tag id settled (settle (before ++ after) w))
      as (st' & l' & -> & _ & Hresolves). simpl in *.
    split; [done|]. left.
    split; [by rewrite (resolves_token _ _ _ _ Hresolves)|].
    intros [_ _ Habsent].
    apply (resolves_kept (Some tag) id); [done|]. intros Hcur.
    apply (Habsent (AwaitTagDistribution client orgSlug tag q id)); [|done].
    rewrite Hinflight. apply elem_of_app. right. apply list_elem_of_here.
  - destruct (total_continuation_effect id settled (settle (before ++ after) w))
      as (st' & l' & -> & _ & Hresolves). simpl in *.
    split; [done|]. left.
    split; [by rewrite (resolves_token _ _ _ _ Hresolves)|].
    intros [_ _ Habsent].
    apply (resolves_kept None id); [done|]. intros Hcur.
    apply (Habsent (AwaitTotalCount client orgSlug q id)); [|done].
    rewrite Hinflight. apply elem_of_app. right. apply list_elem_of_here.
Qed.

Lemma token_below (w : World) (id : symbol) :
  tokens_fresh w -> tagsFetchID (state w) = Some id -> symbol_id id < symbols w.
Proof.
  intros [Hbelow _ Hcurrent] Hcur. apply Hbelow.
  rewrite Hcurrent in Hcur. by apply last_Some_elem_of.
Qed.

(** X7.  In a component whose contexts list no facet twice, what has
    arrived in a round stays for the rest of the round: in every later
    world in which the same token is current, whatever happened in between,
    the total is the one that had arrived, and every facet that had an
    entry still has one with the same values and counts in the same order
    (only the links may have been rewritten by a render). *)
Theorem arrived_entries_stay
    (p : Props) (w w' : World) :
  distinct_facets p ->
  reachable distinct_facets p w ->
  rtc (step distinct_facets) w w' ->
  tagsFetchID (state w') = tagsFetchID (state w) ->
  (forall total,
     totalValues (state w) = Some total ->
     totalValues (state w') = Some total) /\
  (forall tag t,
     tags (state w) !! tag = Some t ->
     exists t',
       tags (state w') !! tag = Some t' /\
       value <$> topValues t' = value <$> topValues t /\
       count <$> topValues t' = count <$> topValues t).
Proof.
  intros Hdistinct Hreach Hlater Hsame.
  assert (Hfresh : tokens_fresh w).
  { apply (lifetime_tokens_fresh distinct_facets p). by right. }
  assert (Hinv :
    reachable distinct_facets p w' /\ symbols w <= symbols w' /\
    ((tagsFetchID (state w') = tagsFetchID (state w) /\
      kept (state w) (state w')) \/
     exists id', tagsFetchID (state w') = Some id' /\
                 symbols w <= symbol_id id')).
  { clear Hsame.
    apply (rtc_ind_r (R := step distinct_facets)
             (fun w1 =>
                reachable distinct_facets p w1 /\ symbols w <= symbols w1 /\
                ((tagsFetchID (state w1) = tagsFetchID (state w) /\
                  kept (state w) (state w1)) \/
                 exists id', tagsFetchID (state w1) = Some id' /\
                             symbols w <= symbol_id id')) w)
      with (z := w'); [|intros w1 w2 _ Hstep IH|exact Hlater].
    - split; [done|]. split; [done|]. left. split; [done|]. apply kept_refl.
    - destruct IH as (Hreach1 & Hsym1 & Hcase).
      destruct (step_token _ _ _ Hstep) as [Hsym2 Htoken].
      split; [by eapply rtc_r|]. split; [lia|].
      destruct Htoken as [[Htoken Hkept]|Htoken].
      + destruct Hcase as [[Hsame1 Hkept1]|(id' & Hid' & Hbound)].
        * left. split; [congruence|].
          apply kept_trans with (state w1); [done|].
          by apply Hkept, (reachable_coherent p).
        * right. exists id'. split; [congruence|done].
      + right. eexists. split; [exact Htoken|]. simpl. lia. }
  destruct Hinv as (_ & _ & [[_ Hkept]|(id' & Hid' & Hbound)]).
  - exact Hkept.
  - rewrite Hid' in Hsame. symmetry in Hsame.
    pose proof (token_below w id' Hfresh Hsame). lia.
Qed.

(** ** The query of the current round *)

Lemma round_requests_query (p : Props) (id : symbol) (rq : Pending) :
  rq ∈ round_requests p id ->
  pending_query rq
  = pickTagParams (getEventsAPIPayload (eventView p) (location p)).
Proof.
  unfold round_requests. intros [Hin|Hin]%elem_of_app.
  - by apply list_elem_of_fmap in Hin as (tag & -> & _).
  - by apply list_elem_of_singleton in Hin as ->.
Qed.

Lemma fetchData_queried (w : World) :
  (forall rq, rq ∈ inflight w -> symbol_id (pending_id rq) < symbols w) ->
  queried (exec fetchData w).
Proof.
  intros Hids. unfold exec. rewrite fetchData_run.
  split; simpl.
  - intros rq [Hin|Hin]%elem_of_app.
    + specialize (Hids rq Hin). lia.
    + apply round_requests_id in Hin as ->. simpl. lia.
  - intros rq [Hin|Hin]%elem_of_app Hcur.
    + specialize (Hids rq Hin). injection Hcur as Hcur.
      rewrite <- Hcur in Hids. simpl in Hids. lia.
    + by apply (round_requests_query (props w) _ rq Hin).
Qed.

Lemma step_queried admissible (w w' : World) :
  step admissible w w' -> queried w -> queried w'.
Proof.
  intros Hstep [Hids Hrequests]. destruct Hstep as
    [w nextProps Hadm|w
    |w before after client orgSlug tag q id settled Hinflight
    |w before after client orgSlug q id settled Hinflight].
  - unfold exec, componentDidUpdate, bind. simpl.
    destruct (tagsChanged nextProps (props w)); simpl;
      [by apply fetchData_queried|].
    destruct (shouldRefetchData nextProps (props w)) eqn:Hshould;
      [by apply fetchData_queried|].
    split; simpl; [done|].
    intros rq Hin Hcur. rewrite (Hrequests rq Hin Hcur).
    unfold shouldRefetchData, isEqual in Hshould.
    apply negb_false_iff, bool_decide_eq_true_1 in Hshould. by symmetry.
  - destruct (render_rerendered w)
      as (Hprops & Hsym & Hinflight & _ & _ & Htoken & _).
    split; rewrite ?Hinflight, ?Hsym, ?Hprops, ?Htoken; done.
  - destruct (tag_continuation_effect tag id settled (settle (before ++ after) w))
      as (st' & l' & -> & _ & Hresolves). simpl in *.
    rewrite Hinflight in Hids, Hrequests.
    split; simpl; rewrite ?(resolves_token _ _ _ _ Hresolves).
    + intros rq [Hin|Hin]%elem_of_app; apply Hids, elem_of_app; [by left|right].
      by apply list_elem_of_further.
    + intros rq [Hin|Hin]%elem_of_app; apply Hrequests, elem_of_app;
        [by left|right]. by apply list_elem_of_further.
  - destruct (total_continuation_effect id settled (settle (before ++ after) w))
      as (st' & l' & -> & _ & Hresolves). simpl in *.
    rewrite Hinflight in Hids, Hrequests.
    split; simpl; rewrite ?(resolves_token _ _ _ _ Hresolves).
    + intros rq [Hin|Hin]%elem_of_app; apply Hids, elem_of_app; [by left|right].
      by apply list_elem_of_further.
    + intros rq [Hin|Hin]%elem_of_app; apply Hrequests, elem_of_app;
        [by left|right]. by apply list_elem_of_further.
Qed.

(** X8.  Between the synchronous steps of React (after construction, after
    the mount, after a change of props once its [componentDidUpdate] has
    run, after a render, after the continuation of a settled request), every
    request in flight that belongs to the current round was sent with the
    picked parameters of the current props: when they change,
    [componentDidUpdate] starts a new round, and the requests sent for the
    old parameters are no longer of the current round. *)
Theorem current_round_queries_current_params
    (admissible : Props -> Prop) (p : Props) (w : World) :
  lifetime admissible p w ->
  forall rq,
    rq ∈ inflight w ->
    tagsFetchID (state w) = Some (pending_id rq) ->
    pending_query rq
    = pickTagParams
        (getEventsAPIPayload (eventView (props w)) (location (props w))).
Proof.
  intros Hlife. apply queried_requests.
  destruct Hlife as [->|Hreach].
  { split; simpl; intros rq Hin; by apply elem_of_nil in Hin. }
  apply (rtc_ind_r (R := step admissible) (fun w => queried w) (mounted p))
    with (z := w); [|intros w1 w2 _ Hstep IH|exact Hreach].
  - apply fetchData_queried. intros rq Hin. by apply elem_of_nil in Hin.
  - by eapply step_queried.
Qed.

End Properties.

(** * The component at work

    The statements above, applied to the concrete instance. *)

Lemma stale_resolution_discarded_witness :
  tagsFetchID (state superseded) = Some sym1 /\
  state (exec (tag_continuation "os" sym0 (inl linux)) superseded)
  = state superseded /\
  state (exec (total_continuation sym0 (inl 15%Z)) superseded)
  = state superseded.
Proof.
  assert (Hstale : tagsFetchID (state superseded) <> Some sym0)
    by (vm_compute; discriminate).
  destruct (@stale_resolution_discarded scenario superseded sym0 Hstale)
    as (Htag & Htotal & _).
  split; [reflexivity|]. split; [apply Htag|apply Htotal].
Defined.

Lemma no_refetch_when_context_unchanged_witness :
  location os_browser_sorted <> location browser_os /\
  componentDidUpdate browser_os
    (receive_props os_browser_sorted (mounted browser_os))
  = (Normal tt, receive_props os_browser_sorted (mounted browser_os)).
Proof.
  split; [vm_compute; discriminate|].
  apply (@no_refetch_when_context_unchanged scenario browser_os os_browser_sorted).
  - intros facet. simpl. rewrite !elem_of_cons, !elem_of_nil. tauto.
  - reflexivity.
Defined.

Lemma refetch_when_facets_differ_witness :
  shouldRefetchData browser_only browser_os = false /\
  tagsChanged browser_only browser_os = true /\
  tagsFetchID
    (state (exec (componentDidUpdate browser_os)
                 (receive_props browser_only (mounted browser_os))))
  = Some sym1.
Proof.
  split; [reflexivity|].
  assert (Hdiffer :
    ~ (forall facet,
         facet ∈ EventView_tags (eventView browser_only) <->
         facet ∈ EventView_tags (eventView browser_os))).
  { simpl. intros Hsame. destruct (Hsame "os") as [_ Hin].
    assert ("os" ∈ ["browser"]) as Hos
      by (apply Hin; rewrite !elem_of_cons; auto).
    apply list_elem_of_singleton in Hos. discriminate. }
  destruct (@refetch_when_facets_differ scenario browser_os browser_only Hdiffer)
    as (Hchanged & _ & Hround).
  split; [exact Hchanged|].
  destruct (Hround (mounted browser_os)) as [_ ->]. reflexivity.
Defined.

Lemma merges_commute_witness :
  foldl (merge sym0) (reset_state sym0) arrivals
  = foldl (merge sym0) (reset_state sym0) (rev arrivals) /\
  tags (foldl (merge sym0) (reset_state sym0) arrivals) !! "os" = Some linux.
Proof.
  assert (Hnodup : NoDup (resolution_target <$> arrivals)).
  { apply (bool_decide_unpack _). vm_compute. exact I. }
  destruct (@merges_commute scenario sym0 (reset_state sym0) arrivals
              (rev arrivals) Hnodup (Permutation_rev arrivals))
    as (Hsame & Hwritten & _).
  split; [exact Hsame|].
  destruct (Hwritten eq_refl) as [Hfacet _].
  apply Hfacet. unfold arrivals. rewrite !elem_of_cons. auto.
Defined.




(** C9, a render that changes the stored state: the component mounted with
    the facet "browser" has received the facet's result (top values without
    link) and the total; [renderTag] then writes a link into each stored top
    value. *)
Lemma renderTag_overwrites_stored_urls :
  reachable (fun _ => True) browser_only resolved_world /\
  tags (state resolved_world) !! "browser" = Some chrome_firefox /\
  map (@url scenario) (topValues chrome_firefox) = [None; None] /\
  (exists t : @Tag scenario,
     tags (state (exec (renderTag "browser") resolved_world)) !! "browser"
     = Some t /\
     map (@url scenario) (topValues t)
     = [Some "/events/?query=browser:chrome";
        Some "/events/?query=browser:firefox"]) /\
  state (exec (renderTag "browser") resolved_world) <> state resolved_world.
Proof.
  split.
  { eapply rtc_l; [|apply rtc_once].
    - exact (step_tag_settled (fun _ => True) (mounted browser_only) []
               [total_request] tt "sentry" "browser" "is:unresolved" sym0
               (inl chrome_firefox) eq_refl).
    - exact (step_total_settled (fun _ => True) browser_resolved [] []
               tt "sentry" "is:unresolved" sym0 (inl 15%Z) eq_refl). }
  split; [by vm_compute|]. split; [reflexivity|]. split.
  { eexists. split; [by vm_compute|]. reflexivity. }
  intros Hsame.
  assert (Hlookup :
    tags (state (exec (renderTag "browser") resolved_world)) !! "browser"
    = tags (state resolved_world) !! "browser") by (by rewrite Hsame).
  vm_compute in Hlookup. discriminate.
Qed.

Lemma entries_are_facets_of_the_props_witness :
  lifetime (fun _ => True) browser_os late_os /\
  EventView_tags (eventView (props late_os)) = ["browser"] /\
  tags (state late_os) !! "os" = None.
Proof.
  assert (Hlife : lifetime (fun _ => True) browser_os late_os).
  { right. eapply rtc_l; [|apply rtc_once].
    - exact (step_props (fun _ => True) (mounted browser_os) browser_only I).
    - exact (step_tag_settled (fun _ => True) superseded [browser_request]
               [total_request;
                @AwaitTagDistribution scenario tt "sentry" "browser"
                  "is:unresolved" sym1;
                @AwaitTotalCount scenario tt "sentry" "is:unresolved" sym1]
               tt "sentry" "os" "is:unresolved" sym0 (inl linux) eq_refl). }
  split; [exact Hlife|]. split; [reflexivity|].
  apply eq_None_not_Some. intros Hsome.
  pose proof (@entries_are_facets_of_the_props scenario (fun _ => True)
                browser_os late_os Hlife "os" Hsome) as Hin.
  apply list_elem_of_singleton in Hin. discriminate.
Defined.


Lemma arrived_entries_stay_witness :
  tags (state browser_resolved) !! "browser" = Some chrome_firefox /\
  totalValues (state browser_resolved) = None /\
  totalValues (state resolved_world) = Some 15%Z /\
  exists t : @Tag scenario,
    tags (state resolved_world) !! "browser" = Some t /\
    map (@value scenario) (topValues t) = ["chrome"; "firefox"] /\
    map (@count scenario) (topValues t) = [10%Z; 5%Z].
Proof.
  assert (Hdistinct : distinct_facets browser_only).
  { apply (bool_decide_unpack _). vm_compute. exact I. }
  assert (Hreach : reachable distinct_facets browser_only browser_resolved).
  { apply rtc_once.
    exact (step_tag_settled distinct_facets (mounted browser_only) []
             [total_request] tt "sentry" "browser" "is:unresolved" sym0
             (inl chrome_firefox) eq_refl). }
  assert (Hlater : rtc (step distinct_facets) browser_resolved resolved_world).
  { apply rtc_once.
    exact (step_total_settled distinct_facets browser_resolved [] []
             tt "sentry" "is:unresolved" sym0 (inl 15%Z) eq_refl). }
  assert (Hentry : tags (state browser_resolved) !! "browser"
                   = Some chrome_firefox) by (by vm_compute).
  destruct (@arrived_entries_stay scenario browser_only browser_resolved
              resolved_world Hdistinct Hreach Hlater eq_refl)
    as [_ Hstay].
  destruct (Hstay "browser" chrome_firefox Hentry) as (t & Ht & Hvalues & Hcounts).
  split; [exact Hentry|]. split; [reflexivity|]. split; [reflexivity|].
  exists t. split; [exact Ht|]. split; [exact Hvalues|exact Hcounts].
Defined.

Lemma current_round_queries_current_params_witness :
  lifetime (fun _ => True) browser_os superseded /\
  @AwaitTotalCount scenario tt "sentry" "is:unresolved" sym1
  ∈ inflight superseded /\
  pending_query (@AwaitTotalCount scenario tt "sentry" "is:unresolved" sym1)
  = pickTagParams
      (getEventsAPIPayload (eventView (props superseded))
         (location (props superseded))).
Proof.
  assert (Hlife : lifetime (fun _ => True) browser_os superseded).
  { right. apply rtc_once.
    exact (step_props (fun _ => True) (mounted browser_os) browser_only I). }
  assert (Hin : @AwaitTotalCount scenario tt "sentry" "is:unresolved" sym1
                ∈ inflight superseded).
  { change (inflight superseded)
      with ([browser_request; os_request; total_request;
             @AwaitTagDistribution scenario tt "sentry" "browser"
               "is:unresolved" sym1;
             @AwaitTotalCount scenario tt "sentry" "is:unresolved" sym1]).
    rewrite !elem_of_cons. auto 10. }
  split; [exact Hlife|]. split; [exact Hin|].
  exact (@current_round_queries_current_params scenario (fun _ => True)
           browser_os superseded Hlife _ Hin eq_refl).
Defined.

(** C2, requests sent before the reset: in a component whose facet and
    total have resolved, the props change to other facets;
    [componentDidUpdate] calls [fetchData], and when [fetchData] has sent
    the three requests of the new round the state still holds the result
    and the total of the old round under the old token. *)
Lemma requests_dispatched_before_reset :
  Lifecycle.componentDidUpdate browser_only []
    (receive_props browser_os resolved_world)
  = (Normal (tt, [fun _ => reset_state sym1]), dispatched) /\
  inflight dispatched
  = [@AwaitTagDistribution scenario tt "sentry" "browser" "is:unresolved" sym1;
     @AwaitTagDistribution scenario tt "sentry" "os" "is:unresolved" sym1;
     @AwaitTotalCount scenario tt "sentry" "is:unresolved" sym1] /\
  state dispatched = state resolved_world /\
  tags (state dispatched) !! "browser" = Some chrome_firefox /\
  totalValues (state dispatched) = Some 15%Z /\
  tagsFetchID (state dispatched) = Some sym0.
Proof.
  split; [by vm_compute|].
  split; [by vm_compute|]. split; [by vm_compute|].
  split; [by vm_compute|]. split; by vm_compute.
Qed.

(** C5, a facet that is not flagged as loading although it has no result:
    the component is mounted with the facet "constructor", the total
    arrives while the request for the facet is in flight; the facet map has
    no entry for "constructor", yet [renderTag] finds the inherited
    property, does not take the facet for loading, and throws. *)
Lemma inherited_facet_not_loading :
  reachable (fun _ => True) constructor_only total_arrived /\
  tags (state total_arrived) !! "constructor" = None /\
  totalValues (state total_arrived) = Some 5%Z /\
  completion (renderTag "constructor") total_arrived = Throw TypeError /\
  rendered "constructor" total_arrived = None /\
  completion render total_arrived = Throw TypeError.
Proof.
  split.
  { apply rtc_once.
    exact (step_total_settled (fun _ => True) (mounted constructor_only)
             [@AwaitTagDistribution scenario tt "sentry" "constructor"
                "is:unresolved" sym0] []
             tt "sentry" "is:unresolved" sym0 (inl 5%Z) eq_refl). }
  split; [by vm_compute|]. split; [reflexivity|].
  destruct (@loading_flag scenario) as (_ & _ & Hthrows).
  split; [|split].
  - apply (Hthrows "constructor" total_arrived 5%Z); [reflexivity| |reflexivity].
    by vm_compute.
  - unfold rendered.
    rewrite (Hthrows "constructor" total_arrived 5%Z);
      [reflexivity|reflexivity| |reflexivity].
    by vm_compute.
  - by vm_compute.
Qed.

